(** * libfm-qt: the basic file launcher (src/core/basicfilelauncher.cpp)

    A shallow embedding of [Fm::BasicFileLauncher].  The launcher is glue
    over GLib/GIO: every call that leaves the class (GIO look-ups, the launch
    primitives, [chdir], the metadata job, the virtual hooks a subclass
    overrides) is a primitive whose answer is given by an oracle and whose
    call is appended to a trace.  Oracles read the whole world (the working
    directory and the trace so far), so an answer may change from one call
    to the next. *)

From stdpp Require Import base option list strings gmap fin_maps.
From Stdlib Require Import ZArith Ascii.

Open Scope Z_scope.
Open Scope string_scope.
Open Scope list_scope.

(** ** Data model *)

(** Modelled from the spec: [Fm::FilePath] (core/filepath.h is not part of
    the sources at hand).  It wraps a [GFile*]; the model keeps how the
    handle was built.  [FilePath()] is the null handle; the three GIO
    constructors never fail, so their results are valid. *)
Inductive FilePath : Type :=
  | NullPath
  | fromUri (uri : string)
  | fromLocalPath (p : string)
  | fromPathStr (s : string).

Definition isValid (p : FilePath) : bool :=
  match p with NullPath => false | _ => true end.

Abbreviation FilePathList := (list FilePath).

(** Modelled from the spec: [Fm::FileInfo] (core/fileinfo.h is not part of
    the sources at hand): the path, the target URI (empty when there is
    none), the name of the MIME type, and the classification flags the
    launcher reads. *)
Record FileInfo : Type := mkFileInfo {
  path : FilePath;
  target : string;
  mimeType : string;
  isDir : bool;
  isMountable : bool;
  isDesktopEntry : bool;
  isExecutableType : bool;
  isShortcut : bool;
  isNative : bool
}.

Abbreviation FileInfoList := (list FileInfo).

(** [FileInfoList::paths()] *)
Definition paths (files : FileInfoList) : FilePathList := map path files.

(** [std::string::empty()] *)
Definition empty_str (s : string) : bool :=
  match s with EmptyString => true | String _ _ => false end.

(** [BasicFileLauncher::ExecAction]; [NONE] is the value that only the
    [default:] labels of the two switches catch. *)
Inductive ExecAction : Type :=
  | NONE | DIRECT_EXEC | EXEC_IN_TERMINAL | OPEN_WITH_DEFAULT_APP | CANCEL.

(** A resolved application ([GAppInfo]); a [GAppInfo*] may be null. *)
Inductive GAppInfo : Type := AppInfo (id : string).
Abbreviation GAppInfoPtr := (option GAppInfo).

(** The launch context is an opaque token handed on to every primitive. *)
Inductive GAppLaunchContext : Type := LaunchContext (display : string).
Abbreviation CtxPtr := (option GAppLaunchContext).

(** [GError] in the [G_IO_ERROR] domain; a [GErrorPtr] may be null. *)
Inductive GIOErrorEnum : Type :=
  | G_IO_ERROR_FAILED
  | G_IO_ERROR_NOT_MOUNTED
  | G_IO_ERROR_code (n : Z).

Record GError : Type := mkGError { code : GIOErrorEnum; message : string }.
Abbreviation GErrorPtr := (option GError).

(** [GAppInfoCreateFlags] (gio/gappinfo.h) *)
Definition G_APP_INFO_CREATE_NONE : Z := 0.
Definition G_APP_INFO_CREATE_NEEDS_TERMINAL : Z := Z.shiftl 1 0.

(** ** The world outside the launcher *)

Inductive Event : Type :=
  | EShowError (ctx : CtxPtr) (err : GErrorPtr) (p : FilePath)
               (info : option FileInfo) (handled : bool)
  | EAskExecFile (file : FileInfo) (act : ExecAction)
  | EChooseApp (files : FileInfoList) (mime : string)
               (app : GAppInfoPtr) (err : GErrorPtr)
  | EDefaultForType (mime : string) (app : GAppInfoPtr)
  | EDefaultForUriScheme (scheme : string) (app : GAppInfoPtr)
  | ELaunchUris (app : GAppInfoPtr) (uris : list string) (ctx : CtxPtr)
                (ok : bool) (err : GErrorPtr)
  | EDesktopAppInfoNewFromFilename (filename : string) (app : GAppInfoPtr)
  | EDesktopAppInfoNew (desktop_id : string) (app : GAppInfoPtr)
  | EFileTestIsExecutable (filename : string) (r : bool)
  | ECreateFromCommandline (cmdline : string) (flags : Z) (app : GAppInfoPtr)
  | EFmAppInfoLaunch (app : GAppInfo) (ctx : CtxPtr) (ok : bool) (err : GErrorPtr)
  | EChdir (dir : string) (errno : option Z)
  | EFileInfoJob (ps : FilePathList) (files : FileInfoList).

Record World : Type := mkWorld {
  cwd : string;
  trace : list Event
}.

Definition log (e : Event) (w : World) : World :=
  {| cwd := cwd w; trace := trace w ++ [e] |}.

(** What GLib, GIO, libfm and the file system answer. *)
Record Platform : Type := mkPlatform {
  (* string utilities *)
  g_uri_parse_scheme : string → option string;
  g_path_is_absolute : string → bool;
  g_path_get_dirname : string → string;
  g_shell_quote : string → string;
  g_strerror : Z → string;
  g_io_error_from_errno : Z → GIOErrorEnum;
  (* the GFile behind a FilePath *)
  uri : FilePath → string;
  localPath : FilePath → option string;
  hasUriScheme : FilePath → string → bool;
  (* answers that depend on the state of the desktop *)
  default_for_type : World → string → GAppInfoPtr;
  default_for_uri_scheme : World → string → GAppInfoPtr;
  launch_uris : World → GAppInfoPtr → list string → CtxPtr → bool * GErrorPtr;
  desktop_app_info_new_from_filename : World → string → GAppInfoPtr;
  desktop_app_info_new : World → string → GAppInfoPtr;
  file_test_is_executable : World → string → bool;
  create_from_commandline : World → string → Z → GAppInfoPtr;
  app_info_launch : World → GAppInfo → CtxPtr → bool * GErrorPtr;
  chdir_errno : World → string → option Z;
  file_info_job : World → FilePathList → FileInfoList
}.

(** The object: its [quickExec_] field and its virtual member functions. *)
Record Launcher : Type := mkLauncher {
  quickExec_ : bool;
  v_askExecFile : World → FileInfo → ExecAction;
  v_showError : World → CtxPtr → GErrorPtr → FilePath → option FileInfo → bool;
  v_chooseApp : World → FileInfoList → string → GErrorPtr → GAppInfoPtr * GErrorPtr
}.

(** The member functions as [BasicFileLauncher] itself defines them. *)
Definition BasicFileLauncher : Launcher :=
  {| quickExec_ := false;
     v_askExecFile := λ _ _, DIRECT_EXEC;
     v_showError := λ _ _ _ _ _, false;
     v_chooseApp := λ _ _ _ err, (None, err) |}.

(** [BasicFileLauncher::ask]: the base class presses the default button. *)
Definition ask (msg : string) (btn_labels : list string) (default_btn : Z) : Z :=
  default_btn.

(** ** Computations *)

(** A call either returns, reads element 0 of an empty vector (undefined
    behaviour in C++), or is cut off because the recursion budget of the
    model is used up. *)
Inductive Outcome (A : Type) : Type :=
  | Ok (a : A) (w : World)
  | OutOfBounds (w : World)
  | OutOfFuel.
Arguments Ok {A} a w.
Arguments OutOfBounds {A} w.
Arguments OutOfFuel {A}.

Definition M (A : Type) : Type := World → Outcome A.

Definition ret {A} (a : A) : M A := λ w, Ok a w.

Definition bind {A B} (m : M A) (k : A → M B) : M B :=
  λ w, match m w with
       | Ok a w' => k a w'
       | OutOfBounds w' => OutOfBounds w'
       | OutOfFuel => OutOfFuel
       end.

Declare Scope launch_scope.
Delimit Scope launch_scope with launch.
Notation "x <- m ;; k" := (bind m (λ x, k))
  (at level 100, m at next level, right associativity) : launch_scope.
Notation "m ;; k" := (bind m (λ _, k))
  (at level 100, right associativity) : launch_scope.
Open Scope launch_scope.

(** A primitive asks its oracle and records the call. *)
Definition prim {A} (ask : World → A) (ev : A → Event) : M A :=
  λ w, let a := ask w in Ok a (log (ev a) w).

(** [v[0]] on a [std::vector] *)
Definition front {A} (v : list A) : M A :=
  λ w, match v !! 0%nat with
       | Some x => Ok x w
       | None => OutOfBounds w
       end.

Definition out_of_fuel {A} : M A := λ _, OutOfFuel.

Fixpoint foldM {A B} (f : A → B → M A) (l : list B) (a : A) : M A :=
  match l with
  | [] => ret a
  | x :: l' => a' <- f a x ;; foldM f l' a'
  end.

(** ** The launcher *)

Section Launcher.

Variable P : Platform.
Variable L : Launcher.

(** *** Calls that leave the class *)

Definition showError (ctx : CtxPtr) (err : GErrorPtr) (p : FilePath)
    (info : option FileInfo) : M bool :=
  prim (λ w, v_showError L w ctx err p info) (EShowError ctx err p info).

Definition askExecFile (file : FileInfo) : M ExecAction :=
  prim (λ w, v_askExecFile L w file) (EAskExecFile file).

Definition chooseApp (fileInfos : FileInfoList) (mime : string) (err : GErrorPtr)
    : M (GAppInfoPtr * GErrorPtr) :=
  prim (λ w, v_chooseApp L w fileInfos mime err)
       (λ r, EChooseApp fileInfos mime r.1 r.2).

Definition g_app_info_get_default_for_type (mime : string) : M GAppInfoPtr :=
  prim (λ w, default_for_type P w mime) (EDefaultForType mime).

Definition g_app_info_get_default_for_uri_scheme (scheme : string) : M GAppInfoPtr :=
  prim (λ w, default_for_uri_scheme P w scheme) (EDefaultForUriScheme scheme).

Definition g_app_info_launch_uris (app : GAppInfoPtr) (uris : list string)
    (ctx : CtxPtr) : M (bool * GErrorPtr) :=
  prim (λ w, launch_uris P w app uris ctx) (λ r, ELaunchUris app uris ctx r.1 r.2).

Definition g_desktop_app_info_new_from_filename (filename : string) : M GAppInfoPtr :=
  prim (λ w, desktop_app_info_new_from_filename P w filename)
       (EDesktopAppInfoNewFromFilename filename).

Definition g_desktop_app_info_new (desktop_id : string) : M GAppInfoPtr :=
  prim (λ w, desktop_app_info_new P w desktop_id) (EDesktopAppInfoNew desktop_id).

Definition g_file_test_is_executable (filename : string) : M bool :=
  prim (λ w, file_test_is_executable P w filename) (EFileTestIsExecutable filename).

Definition fm_app_info_create_from_commandline (cmdline : string) (flags : Z)
    : M GAppInfoPtr :=
  prim (λ w, create_from_commandline P w cmdline flags)
       (ECreateFromCommandline cmdline flags).

Definition fm_app_info_launch (app : GAppInfo) (ctx : CtxPtr) : M (bool * GErrorPtr) :=
  prim (λ w, app_info_launch P w app ctx) (λ r, EFmAppInfoLaunch app ctx r.1 r.2).

Definition g_get_current_dir : M string := λ w, Ok (cwd w) w.

(** [chdir]: [None] is the return value 0, [Some e] is -1 with [errno = e].
    The launcher only hands absolute names to [chdir] (a directory name of
    [g_file_get_path], or the result of [g_get_current_dir]), so a
    successful call makes its argument the working directory. *)
Definition chdir (dir : string) : M (option Z) :=
  λ w, let r := chdir_errno P w dir in
       let w' := match r with
                 | None => {| cwd := dir; trace := trace w |}
                 | Some _ => w
                 end in
       Ok r (log (EChdir dir r) w').

(** [FileInfoJob{paths}], run to its end; the result is [job->files()]. *)
Definition FileInfoJob (ps : FilePathList) : M FileInfoList :=
  prim (λ w, file_info_job P w ps) (EFileInfoJob ps).

(** *** Member functions that do not re-enter [launchFiles] *)

Definition launchWithApp (app : GAppInfoPtr) (ps : FilePathList) (ctx : CtxPtr)
    : M bool :=
  let uris := fold_left (λ uris p, uri P p :: uris) ps [] in
  r <- g_app_info_launch_uris app uris ctx ;;
  let ret_ := r.1 in
  let err := r.2 in
  if negb ret_ then
    p0 <- front ps ;;
    showError ctx err p0 None ;;
    ret ret_
  else ret ret_.

Definition openFolder (ctx : CtxPtr) (folderInfos : FileInfoList) (err : GErrorPtr)
    : M bool :=
  r <- chooseApp folderInfos "inode/directory" err ;;
  match r.1 with
  | Some app =>
      launchWithApp (Some app) (paths folderInfos) ctx ;;
      ret false
  | None =>
      showError ctx r.2 NullPath None ;;
      ret false
  end.

Definition launchWithDefaultApp (fileInfo : FileInfo) (ctx : CtxPtr) : M bool :=
  let files := [fileInfo] in
  let err : GErrorPtr := None in
  app <- g_app_info_get_default_for_type (mimeType fileInfo) ;;
  match app with
  | Some a => launchWithApp (Some a) (paths files) ctx
  | None =>
      showError ctx err (path fileInfo) None ;;
      ret false
  end.

(** [launchDesktopEntry(const char*, ...)] *)
Definition launchDesktopEntry_name (desktopEntryName : string) (ps : FilePathList)
    (ctx : CtxPtr) : M bool :=
  let ret_ := false in
  app <- (if g_path_is_absolute P desktopEntryName
          then g_desktop_app_info_new_from_filename desktopEntryName
          else g_desktop_app_info_new desktopEntryName) ;;
  match app with
  | Some a => launchWithApp (Some a) ps ctx
  | None =>
      let msg := "Invalid desktop entry file: '" +:+ desktopEntryName +:+ "'" in
      let err := Some {| code := G_IO_ERROR_FAILED; message := msg |} in
      showError ctx err NullPath None ;;
      ret ret_
  end.

Definition handleShortcut (fileInfo : FileInfo) (ctx : CtxPtr) : M FilePath :=
  let target_ := target fileInfo in
  match g_uri_parse_scheme P target_ with
  | Some scheme =>
      if (scheme =? "file")%string || (scheme =? "trash")%string
         || (scheme =? "network")%string || (scheme =? "computer")%string
      then ret (fromUri (target fileInfo))
      else
        app <- g_app_info_get_default_for_uri_scheme scheme ;;
        let uris := [fromUri (target fileInfo)] in
        launchWithApp app uris ctx ;;
        ret NullPath
  | None => ret (fromLocalPath (target fileInfo))
  end.

(** The statements of [case ExecAction::DIRECT_EXEC] in [launchExecutable],
    which [case ExecAction::EXEC_IN_TERMINAL] falls through to; [flags] is
    the value the variable has on arrival.  [g_path_get_dirname] never
    returns null, so the test [run_path && ...] only compares with ["."].
    A failed [chdir] back only writes a [g_warning]. *)
Definition direct_exec (filename : string) (flags : Z) (ctx : CtxPtr) : M bool :=
  let quoted := g_shell_quote P filename in
  app <- fm_app_info_create_from_commandline quoted flags ;;
  match app with
  | Some a =>
      let run_path := g_path_get_dirname P filename in
      cwd_ <- (if negb (run_path =? ".")%string then
                 c <- g_get_current_dir ;;
                 r <- chdir run_path ;;
                 match r with
                 | Some errno =>
                     let msg := "Cannot set working directory to '"
                                +:+ run_path +:+ "': " +:+ g_strerror P errno in
                     let err := Some {| code := g_io_error_from_errno P errno;
                                        message := msg |} in
                     showError ctx err NullPath None ;;
                     ret None
                 | None => ret (Some c)
                 end
               else ret None) ;;
      r <- fm_app_info_launch a ctx ;;
      (if negb r.1 then showError ctx r.2 NullPath None ;; ret tt
       else ret tt) ;;
      match cwd_ with
      | Some c => chdir c ;; ret true
      | None => ret true
      end
  | None => ret false
  end.

(** [g_file_test] answers FALSE on a null file name without looking at the
    file system. *)
Definition launchExecutable (fileInfo : FileInfo) (ctx : CtxPtr) : M bool :=
  match localPath P (path fileInfo) with
  | None => ret false
  | Some filename =>
      ok <- g_file_test_is_executable filename ;;
      if ok then
        act <- (if quickExec_ L then ret DIRECT_EXEC else askExecFile fileInfo) ;;
        let flags := G_APP_INFO_CREATE_NONE in
        match act with
        | EXEC_IN_TERMINAL =>
            let flags := Z.lor flags G_APP_INFO_CREATE_NEEDS_TERMINAL in
            direct_exec filename flags ctx
        | DIRECT_EXEC => direct_exec filename flags ctx
        | OPEN_WITH_DEFAULT_APP => launchWithDefaultApp fileInfo ctx
        | CANCEL | NONE => ret false
        end
      else ret false
  end.

(** *** Member functions that re-enter [launchFiles] *)

(** The accumulators of the classification loop. *)
Record Buckets : Type := mkBuckets {
  mimeTypeToFiles : gmap string FileInfoList;
  folderInfos : FileInfoList;
  pathsToLaunch : FilePathList
}.

Definition no_buckets : Buckets :=
  {| mimeTypeToFiles := ∅; folderInfos := []; pathsToLaunch := [] |}.

Definition add_folder (fi : FileInfo) (b : Buckets) : Buckets :=
  {| mimeTypeToFiles := mimeTypeToFiles b;
     folderInfos := folderInfos b ++ [fi];
     pathsToLaunch := pathsToLaunch b |}.

Definition add_path (p : FilePath) (b : Buckets) : Buckets :=
  {| mimeTypeToFiles := mimeTypeToFiles b;
     folderInfos := folderInfos b;
     pathsToLaunch := pathsToLaunch b ++ [p] |}.

(** [mimeTypeToFiles[name].emplace_back(fileInfo)] *)
Definition add_mime (name : string) (fi : FileInfo) (b : Buckets) : Buckets :=
  {| mimeTypeToFiles :=
       <[name := default [] (mimeTypeToFiles b !! name) ++ [fi]]> (mimeTypeToFiles b);
     folderInfos := folderInfos b;
     pathsToLaunch := pathsToLaunch b |}.

Section Body.

(** The recursive call of [launchFiles]. *)
Variable launchFiles_rec : FileInfoList → CtxPtr → M bool.

Definition launchPaths (ps : FilePathList) (ctx : CtxPtr) : M bool :=
  files <- FileInfoJob ps ;;
  launchFiles_rec files ctx ;;
  ret false.

(** [launchDesktopEntry(const FileInfoPtr&, ...)]: the first part either
    returns ([inl]) or leaves [desktopEntryName] and [shortcutTargetPaths]
    for the common tail ([inr]). *)
Definition launchDesktopEntry (fileInfo : FileInfo) (ps : FilePathList)
    (ctx : CtxPtr) : M bool :=
  let target_ := target fileInfo in
  let entry_name : option string :=
    let filename := if empty_str target_ then localPath P (path fileInfo) else None in
    if negb (empty_str target_) then Some target_ else filename in
  locals <-
    (if isExecutableType fileInfo then
       act <- (if quickExec_ L then ret DIRECT_EXEC else askExecFile fileInfo) ;;
       match act with
       | EXEC_IN_TERMINAL | DIRECT_EXEC =>
           if isShortcut fileInfo then
             p <- handleShortcut fileInfo ctx ;;
             ret (inr (None, if isValid p then [p] else []))
           else ret (inr (entry_name, []))
       | OPEN_WITH_DEFAULT_APP =>
           r <- launchWithDefaultApp fileInfo ctx ;; ret (inl r)
       | CANCEL => ret (inl false)
       | NONE => ret (inl false)
       end
     else if isNative fileInfo || hasUriScheme P (path fileInfo) "menu" then
       ret (inr (entry_name, []))
     else ret (inr (None, []))) ;;
  match locals with
  | inl r => ret r
  | inr (Some desktopEntryName, _) => launchDesktopEntry_name desktopEntryName ps ctx
  | inr (None, shortcutTargetPaths) =>
      match shortcutTargetPaths with
      | _ :: _ => launchPaths shortcutTargetPaths ctx ;; ret false
      | [] => ret false
      end
  end.

(** One round of the classification loop of [launchFiles]. *)
Definition classify (ctx : CtxPtr) (b : Buckets) (fileInfo : FileInfo) : M Buckets :=
  if isDir fileInfo then ret (add_folder fileInfo b)
  else if isMountable fileInfo then
    if empty_str (target fileInfo) then
      let err := Some {| code := G_IO_ERROR_NOT_MOUNTED;
                         message := "The path is not mounted." |} in
      handled <- showError ctx err (path fileInfo) (Some fileInfo) ;;
      if negb handled then ret b
      else ret (add_path (path fileInfo) b)
    else ret (add_path (fromPathStr (target fileInfo)) b)
  else if isDesktopEntry fileInfo then
    launchDesktopEntry fileInfo [] ctx ;; ret b
  else if isExecutableType fileInfo then
    launchExecutable fileInfo ctx ;; ret b
  else if isShortcut fileInfo then
    p <- handleShortcut fileInfo ctx ;;
    if isValid p then ret (add_path p b) else ret b
  else ret (add_mime (mimeType fileInfo) fileInfo b).

(** One round of the loop over [mimeTypeToFiles]. *)
Definition launch_group (ctx : CtxPtr) (_ : unit) (typeFiles : string * FileInfoList)
    : M unit :=
  let mime := typeFiles.1 in
  let files := typeFiles.2 in
  app <- g_app_info_get_default_for_type mime ;;
  app <- match app with
         | Some _ => ret app
         | None => r <- chooseApp files mime None ;; ret r.1
         end ;;
  match app with
  | Some a => launchWithApp (Some a) (paths files) ctx ;; ret tt
  | None => ret tt
  end.

(** The body of [launchFiles].  A [std::unordered_map] is traversed in an
    order the language leaves open; the model takes the order of
    [map_to_list]. *)
Definition launchFiles_body (fileInfos : FileInfoList) (ctx : CtxPtr) : M bool :=
  b <- foldM (classify ctx) fileInfos no_buckets ;;
  match folderInfos b with
  | _ :: _ => openFolder ctx (folderInfos b) None ;; ret tt
  | [] => ret tt
  end ;;
  foldM (launch_group ctx) (map_to_list (mimeTypeToFiles b)) tt ;;
  match pathsToLaunch b with
  | _ :: _ => launchPaths (pathsToLaunch b) ctx ;; ret tt
  | [] => ret tt
  end ;;
  ret true.

End Body.

(** [launchFiles]: [fuel] bounds how many times the call re-enters itself
    through [launchPaths]. *)
Fixpoint launchFiles (fuel : nat) (fileInfos : FileInfoList) (ctx : CtxPtr) : M bool :=
  match fuel with
  | O => out_of_fuel
  | S n => launchFiles_body (launchFiles n) fileInfos ctx
  end.

End Launcher.

(** ** The specification's vocabulary *)

(** The seven buckets of the specification's data model. *)
Inductive Bucket : Type :=
  | Directory | MountablePending | MountableResolved
  | DesktopEntry | Executable | Shortcut | GenericMime.

(** Membership in a bucket as the specification words it: the bucket's own
    test holds and the tests of all buckets of higher priority fail. *)
Definition in_bucket (k : Bucket) (fi : FileInfo) : Prop :=
  match k with
  | Directory => isDir fi = true
  | MountablePending =>
      isDir fi = false ∧ isMountable fi = true ∧ target fi = ""
  | MountableResolved =>
      isDir fi = false ∧ isMountable fi = true ∧ target fi ≠ ""
  | DesktopEntry =>
      isDir fi = false ∧ isMountable fi = false ∧ isDesktopEntry fi = true
  | Executable =>
      isDir fi = false ∧ isMountable fi = false ∧ isDesktopEntry fi = false
      ∧ isExecutableType fi = true
  | Shortcut =>
      isDir fi = false ∧ isMountable fi = false ∧ isDesktopEntry fi = false
      ∧ isExecutableType fi = false ∧ isShortcut fi = true
  | GenericMime =>
      isDir fi = false ∧ isMountable fi = false ∧ isDesktopEntry fi = false
      ∧ isExecutableType fi = false ∧ isShortcut fi = false
  end.

(** The URI schemes a shortcut target may have to be queued. *)
Definition local_schemes : list string := ["file"; "trash"; "network"; "computer"].

Definition queued_scheme (scheme : option string) : Prop :=
  match scheme with
  | None => True
  | Some s => s ∈ local_schemes
  end.

(** The same order of tests as a function. *)
Definition bucket_of (fi : FileInfo) : Bucket :=
  if isDir fi then Directory
  else if isMountable fi then
    (if empty_str (target fi) then MountablePending else MountableResolved)
  else if isDesktopEntry fi then DesktopEntry
  else if isExecutableType fi then Executable
  else if isShortcut fi then Shortcut
  else GenericMime.

(** What the specification says the launcher does with a file of each
    bucket, written with the launcher's own member functions. *)
Section BucketActions.

Variable P : Platform.
Variable L : Launcher.
Variable launchFiles_rec : FileInfoList → CtxPtr → M bool.

Definition not_mounted : GErrorPtr :=
  Some {| code := G_IO_ERROR_NOT_MOUNTED; message := "The path is not mounted." |}.

Definition bucket_action (k : Bucket) (ctx : CtxPtr) (b : Buckets) (fi : FileInfo)
    : M Buckets :=
  match k with
  | Directory => ret (add_folder fi b)
  | MountablePending =>
      handled <- showError L ctx not_mounted (path fi) (Some fi) ;;
      ret (if handled then add_path (path fi) b else b)
  | MountableResolved => ret (add_path (fromPathStr (target fi)) b)
  | DesktopEntry => launchDesktopEntry P L launchFiles_rec fi [] ctx ;; ret b
  | Executable => launchExecutable P L fi ctx ;; ret b
  | Shortcut =>
      p <- handleShortcut P L fi ctx ;;
      ret (if isValid p then add_path p b else b)
  | GenericMime => ret (add_mime (mimeType fi) fi b)
  end.

(** What [launchFiles] does with the buckets once the classification loop
    is through: the folder batch, the batches of the MIME types, the
    re-dispatch of the queued paths, and the result true. *)
Definition launch_batches (ctx : CtxPtr) (b : Buckets) : M bool :=
  match folderInfos b with
  | _ :: _ => openFolder P L ctx (folderInfos b) None ;; ret tt
  | [] => ret tt
  end ;;
  foldM (launch_group P L ctx) (map_to_list (mimeTypeToFiles b)) tt ;;
  match pathsToLaunch b with
  | _ :: _ => launchPaths P launchFiles_rec (pathsToLaunch b) ctx ;; ret tt
  | [] => ret tt
  end ;;
  ret true.

End BucketActions.

Section Registry.

Variable P : Platform.

(** The registry look-up of [launchDesktopEntry(const char*, ...)]. *)
Definition registry_app (w : World) (name : string) : GAppInfoPtr :=
  if g_path_is_absolute P name then desktop_app_info_new_from_filename P w name
  else desktop_app_info_new P w name.

Definition registry_event (name : string) (app : GAppInfoPtr) : Event :=
  if g_path_is_absolute P name then EDesktopAppInfoNewFromFilename name app
  else EDesktopAppInfoNew name app.

(** The identifier of a desktop entry: its target string, or else its
    local path. *)
Definition entry_id (fi : FileInfo) : option string :=
  if empty_str (target fi) then localPath P (path fi) else Some (target fi).

End Registry.

(** Whether creation flags ask for a terminal. *)
Definition needs_terminal (flags : Z) : bool :=
  negb (Z.land flags G_APP_INFO_CREATE_NEEDS_TERMINAL =? 0)%Z.

(** The action [launchExecutable] and [launchDesktopEntry] act on, given
    the world in which the question is asked. *)
Definition chosen_action (L : Launcher) (fi : FileInfo) (w1 : World) : ExecAction :=
  if quickExec_ L then DIRECT_EXEC else v_askExecFile L w1 fi.

(** The [chdir] calls of a trace, with their results. *)
Definition chdirs (evs : list Event) : list (string * option Z) :=
  omap (λ e, match e with EChdir d r => Some (d, r) | _ => None end) evs.

(** What an executable launch may do to the working directory [old], for
    an executable in the folder [run_path]: the [chdir] calls it makes and
    the working directory it ends in. *)
Inductive cwd_outcome (old run_path : string) : list (string * option Z) → string → Prop :=
  | cwd_untouched :
      cwd_outcome old run_path [] old
  | cwd_not_entered e :
      run_path ≠ "." →
      cwd_outcome old run_path [(run_path, Some e)] old
  | cwd_restored :
      run_path ≠ "." →
      cwd_outcome old run_path [(run_path, None); (old, None)] old
  | cwd_not_restored e :
      run_path ≠ "." →
      cwd_outcome old run_path [(run_path, None); (old, Some e)] run_path.

(** The steps of an executable launch that bear on the working directory,
    in the order of the trace: the [chdir] calls, the launch through
    [fm_app_info_launch], and the reports to the error surface. *)
Inductive ExecStep : Type :=
  | StepChdir (dir : string) (errno : option Z)
  | StepLaunch (app : GAppInfo) (ok : bool)
  | StepReport (err : GErrorPtr).

Definition exec_steps (evs : list Event) : list ExecStep :=
  omap (λ e, match e with
             | EChdir d r => Some (StepChdir d r)
             | EFmAppInfoLaunch a _ ok _ => Some (StepLaunch a ok)
             | EShowError _ err _ _ _ => Some (StepReport err)
             | _ => None
             end) evs.

Definition is_report_step (s : ExecStep) : Prop :=
  match s with StepReport _ => True | _ => False end.

(** The launch itself: it works, or it fails and is reported. *)
Inductive launch_part (a : GAppInfo) : list ExecStep → Prop :=
  | launch_worked : launch_part a [StepLaunch a true]
  | launch_reported err : launch_part a [StepLaunch a false; StepReport err].

(** The steps of an executable launch from the working directory [old],
    for an executable in the folder [run_path], and the working directory
    at the end.  Nothing is launched; or the launch is made in place; or
    the folder cannot be entered, which is reported, and the launch is made
    all the same; or the folder is entered, the launch is made there, and
    then, as the last step, the old directory is entered again or, without
    a report, is not. *)
Inductive exec_outcome (old run_path : string) : list ExecStep → string → Prop :=
  | exec_no_launch steps :
      Forall is_report_step steps →
      exec_outcome old run_path steps old
  | exec_in_place a l :
      run_path = "." → launch_part a l →
      exec_outcome old run_path l old
  | exec_not_entered e err a l :
      run_path ≠ "." → launch_part a l →
      exec_outcome old run_path (StepChdir run_path (Some e) :: StepReport err :: l) old
  | exec_restored a l :
      run_path ≠ "." → launch_part a l →
      exec_outcome old run_path
        (StepChdir run_path None :: l ++ [StepChdir old None]) old
  | exec_not_restored a l e :
      run_path ≠ "." → launch_part a l →
      exec_outcome old run_path
        (StepChdir run_path None :: l ++ [StepChdir old (Some e)]) run_path.

(** The world a call ends in, when it ends. *)
Definition final_world {A} (o : Outcome A) : option World :=
  match o with
  | Ok _ w | OutOfBounds w => Some w
  | OutOfFuel => None
  end.

(** The events a run has added to the trace. *)
Definition added (w w' : World) (evs : list Event) : Prop :=
  trace w' = trace w ++ evs.

#[global] Instance Bucket_eq_dec : EqDecision Bucket.
Proof. solve_decision. Defined.

(** The files of the generic bucket that have a given MIME type, in the
    order of the input. *)
Definition generic_of (name : string) (infos : FileInfoList) : FileInfoList :=
  filter (λ fi, bucket_of fi = GenericMime ∧ mimeType fi = name) infos.

(** The buckets whose handling neither queues a path nor enters the
    desktop-entry path. *)
Definition settled (fi : FileInfo) : Prop :=
  bucket_of fi ∈ [Directory; Executable; GenericMime].

(** The MIME types for which a trace asked for the default application. *)
Definition lookups (evs : list Event) : list string :=
  omap (λ e, match e with EDefaultForType m _ => Some m | _ => None end) evs.

(** The URI lists a trace handed to the launch primitive. *)
Definition launched (evs : list Event) : list (list string) :=
  omap (λ e, match e with ELaunchUris _ us _ _ _ => Some us | _ => None end) evs.

Section Groups.

Variable P : Platform.
Variable ctx : CtxPtr.

(** One invocation of an application with all the paths of [files], and
    the error report when it fails. *)
Inductive launch_events (a : GAppInfo) (files : FileInfoList) : list Event → Prop :=
  | launch_fine err :
      launch_events a files
        [ELaunchUris (Some a) (rev (map (uri P) (paths files))) ctx true err]
  | launch_failed err p0 h :
      head (paths files) = Some p0 →
      launch_events a files
        [ELaunchUris (Some a) (rev (map (uri P) (paths files))) ctx false err;
         EShowError ctx err p0 None h].

(** What the launcher may do for one MIME type and its files: one look-up
    of the default application; the chooser only when there is no default;
    one invocation when an application was obtained. *)
Inductive group_events (mime : string) (files : FileInfoList) : list Event → Prop :=
  | group_default a evs :
      launch_events a files evs →
      group_events mime files (EDefaultForType mime (Some a) :: evs)
  | group_chosen a err evs :
      launch_events a files evs →
      group_events mime files
        (EDefaultForType mime None :: EChooseApp files mime (Some a) err :: evs)
  | group_none err :
      group_events mime files
        [EDefaultForType mime None; EChooseApp files mime None err].

(** What the launcher may do for the folder batch: nothing when it is
    empty; else one question to [chooseApp] for the type inode/directory,
    and one invocation with all folders, or the report of the error that
    [chooseApp] left. *)
Inductive folder_events (folders : FileInfoList) : list Event → Prop :=
  | folder_none :
      folders = [] → folder_events folders []
  | folder_opened a err evs :
      folders ≠ [] →
      launch_events a folders evs →
      folder_events folders (EChooseApp folders "inode/directory" (Some a) err :: evs)
  | folder_no_app err h :
      folders ≠ [] →
      folder_events folders
        [EChooseApp folders "inode/directory" None err;
         EShowError ctx err NullPath None h].

End Groups.

(** The reports a trace made to the error surface: the error and the path. *)
Definition reported (evs : list Event) : list (GErrorPtr * FilePath) :=
  omap (λ e, match e with EShowError _ err p _ _ => Some (err, p) | _ => None end) evs.

(** The applications a trace launched through [fm_app_info_launch]. *)
Definition app_launches (evs : list Event) : list GAppInfo :=
  omap (λ e, match e with EFmAppInfoLaunch a _ _ _ => Some a | _ => None end) evs.

(** The exit of [launchExecutable], event by event: a launch through
    [fm_app_info_launch] carries the caller's context and makes the result
    true; an application that could not be created makes it false. *)
Definition exec_event_ok (ctx : CtxPtr) (r : bool) (e : Event) : Prop :=
  match e with
  | EFmAppInfoLaunch _ c _ _ => c = ctx ∧ r = true
  | ECreateFromCommandline _ _ None => r = false
  | _ => True
  end.

Definition is_ask (e : Event) : Prop :=
  match e with EAskExecFile _ _ => True | _ => False end.

Definition is_create (e : Event) : Prop :=
  match e with ECreateFromCommandline _ _ _ => True | _ => False end.

Definition is_chdir (e : Event) : Prop :=
  match e with EChdir _ _ => True | _ => False end.

Definition is_failed_chdir (e : Event) : Prop :=
  match e with EChdir _ (Some _) => True | _ => False end.

(** A computation respects a relation between the world it starts in, the
    world it ends in and the events it adds, whenever it ends. *)
Definition respects {A} (R : World → World → list Event → Prop) (m : M A) : Prop :=
  ∀ w, match final_world (m w) with
       | Some w' => ∃ evs, added w w' evs ∧ R w w' evs
       | None => True
       end.

(** An event that carries a launch context carries [ctx]. *)
Definition event_ctx_ok (ctx : CtxPtr) (e : Event) : Prop :=
  match e with
  | EShowError c _ _ _ _ | ELaunchUris _ _ c _ _ | EFmAppInfoLaunch _ c _ _ => c = ctx
  | _ => True
  end.

(** An event may be logged in any world under [R]. *)
Definition allowed (R : World → World → list Event → Prop) (e : Event) : Prop :=
  ∀ w, R w (log e w) [e].

(** Every added event is of the kind [Q]. *)
Definition always (Q : Event → Prop) : World → World → list Event → Prop :=
  λ _ _ evs, Forall Q evs.

(** No event of the kind [Q] is added. *)
Definition never (Q : Event → Prop) : World → World → list Event → Prop :=
  always (λ e, ¬ Q e).

(** The creation of an application that asks for a terminal. *)
Definition terminal_create (e : Event) : Prop :=
  match e with
  | ECreateFromCommandline _ fl _ => needs_terminal fl = true
  | _ => False
  end.

(** The working directory is the same again, or some [chdir] failed. *)
Definition cwd_kept : World → World → list Event → Prop :=
  λ w w' evs, cwd w' = cwd w ∨ Exists is_failed_chdir evs.


(** ** A small desktop to run the launcher on *)

Module Demo.

(** The text before the first colon, when there is one. *)
Fixpoint before_colon (s : string) : option string :=
  match s with
  | EmptyString => None
  | String c s' =>
      if Ascii.eqb c ":"%char then Some EmptyString
      else option_map (String c) (before_colon s')
  end.

Definition starts_with_slash (s : string) : bool :=
  match s with String c _ => Ascii.eqb c "/"%char | EmptyString => false end.

Definition dirname (s : string) : string :=
  if (s =? "/home/u/run.sh")%string then "/home/u" else ".".

Definition local_of (p : FilePath) : option string :=
  match p with
  | fromLocalPath s | fromPathStr s => Some s
  | _ => None
  end.

Definition uri_of (p : FilePath) : string :=
  match p with
  | NullPath => ""
  | fromUri u => u
  | fromLocalPath s | fromPathStr s => "file://" +:+ s
  end.

(** [apps] says whether look-ups find an application, [launch_ok] whether
    launching works and [can_enter] which directories [chdir] accepts. *)
Definition desktop (apps launch_ok : bool) (can_enter : string → bool)
    (job : FilePathList → FileInfoList) : Platform :=
  {| g_uri_parse_scheme := before_colon;
     g_path_is_absolute := starts_with_slash;
     g_path_get_dirname := dirname;
     g_shell_quote := λ s, "'" +:+ s +:+ "'";
     g_strerror := λ _, "Permission denied";
     g_io_error_from_errno := λ e, G_IO_ERROR_code e;
     uri := uri_of;
     localPath := local_of;
     hasUriScheme := λ p s,
       match p with
       | fromUri u => bool_decide (before_colon u = Some s)
       | _ => false
       end;
     default_for_type := λ _ mime,
       if apps then Some (AppInfo ("default:" +:+ mime)) else None;
     default_for_uri_scheme := λ _ s,
       if apps then Some (AppInfo ("handler:" +:+ s)) else None;
     launch_uris := λ _ _ _ _,
       (launch_ok, if launch_ok then None
                   else Some {| code := G_IO_ERROR_FAILED; message := "launch failed" |});
     desktop_app_info_new_from_filename := λ _ f,
       if apps then Some (AppInfo f) else None;
     desktop_app_info_new := λ _ i, if apps then Some (AppInfo i) else None;
     file_test_is_executable := λ _ _, true;
     create_from_commandline := λ _ c _, Some (AppInfo c);
     app_info_launch := λ _ _ _,
       (launch_ok, if launch_ok then None
                   else Some {| code := G_IO_ERROR_FAILED; message := "launch failed" |});
     chdir_errno := λ _ d, if can_enter d then None else Some 13;
     file_info_job := λ _ ps, job ps |}.

Definition no_files : FilePathList → FileInfoList := λ _, [].

(** A launcher that handles every error and opens folders with one
    application. *)
Definition helpful (act : ExecAction) : Launcher :=
  {| quickExec_ := false;
     v_askExecFile := λ _ _, act;
     v_showError := λ _ _ _ _ _, true;
     v_chooseApp := λ _ _ mime err, (Some (AppInfo ("chosen:" +:+ mime)), err) |}.

(** The same launcher in quick-execute mode. *)
Definition quick (act : ExecAction) : Launcher :=
  {| quickExec_ := true;
     v_askExecFile := λ _ _, act;
     v_showError := λ _ _ _ _ _, true;
     v_chooseApp := λ _ _ mime err, (Some (AppInfo ("chosen:" +:+ mime)), err) |}.

Definition start : World := {| cwd := "/srv/start"; trace := [] |}.

Definition ctx0 : CtxPtr := Some (LaunchContext ":0").

Definition plain (p mime : string) : FileInfo :=
  {| path := fromLocalPath p; target := ""; mimeType := mime;
     isDir := false; isMountable := false; isDesktopEntry := false;
     isExecutableType := false; isShortcut := false; isNative := true |}.

Definition docs : FileInfo :=
  {| path := fromLocalPath "/home/u/Docs"; target := ""; mimeType := "inode/directory";
     isDir := true; isMountable := false; isDesktopEntry := false;
     isExecutableType := false; isShortcut := false; isNative := true |}.

Definition run_sh : FileInfo :=
  {| path := fromLocalPath "/home/u/run.sh"; target := "";
     mimeType := "application/x-shellscript";
     isDir := false; isMountable := false; isDesktopEntry := false;
     isExecutableType := true; isShortcut := false; isNative := true |}.

Definition lib_sh : FileInfo := plain "/home/u/lib.sh" "application/x-shellscript".

Definition a_txt : FileInfo := plain "/home/u/a.txt" "text/plain".
Definition b_txt : FileInfo := plain "/home/u/b.txt" "text/plain".

Definition volume (tgt : string) : FileInfo :=
  {| path := fromUri "computer:///disk.drive"; target := tgt;
     mimeType := "inode/mount-point";
     isDir := false; isMountable := true; isDesktopEntry := false;
     isExecutableType := false; isShortcut := false; isNative := false |}.

Definition link_to (tgt : string) : FileInfo :=
  {| path := fromUri "network:///link"; target := tgt;
     mimeType := "inode/x-shortcut";
     isDir := false; isMountable := false; isDesktopEntry := false;
     isExecutableType := false; isShortcut := true; isNative := false |}.

Definition app_desktop : FileInfo :=
  {| path := fromLocalPath "/usr/share/applications/app.desktop"; target := "";
     mimeType := "application/x-desktop";
     isDir := false; isMountable := false; isDesktopEntry := true;
     isExecutableType := false; isShortcut := false; isNative := true |}.

Definition link_desktop : FileInfo :=
  {| path := fromLocalPath "/home/u/Desktop/site.desktop";
     target := "https://example.org/";
     mimeType := "application/x-desktop";
     isDir := false; isMountable := false; isDesktopEntry := true;
     isExecutableType := true; isShortcut := true; isNative := true |}.

End Demo.

(** ** Reasoning about computations *)

Lemma bind_Ok {A B} (m : M A) (k : A → M B) w a w' :
  m w = Ok a w' → bind m k w = k a w'.
Proof. intros H. unfold bind. by rewrite H. Qed.

Lemma bind_OutOfBounds {A B} (m : M A) (k : A → M B) w w' :
  m w = OutOfBounds w' → bind m k w = OutOfBounds w'.
Proof. intros H. unfold bind. by rewrite H. Qed.

Lemma bind_inv_Ok {A B} (m : M A) (k : A → M B) w b w' :
  bind m k w = Ok b w' → ∃ a w1, m w = Ok a w1 ∧ k a w1 = Ok b w'.
Proof. unfold bind. destruct (m w) as [a w1| |]; [eauto | done | done]. Qed.

Lemma prim_Ok {A} (ask : World → A) (ev : A → Event) w :
  prim ask ev w = Ok (ask w) (log (ev (ask w)) w).
Proof. reflexivity. Qed.

Lemma foldM_cons {A B} (f : A → B → M A) x l a :
  foldM f (x :: l) a = (a' <- f a x ;; foldM f l a').
Proof. reflexivity. Qed.

Lemma foldM_app {A B} (f : A → B → M A) l1 l2 a w :
  foldM f (l1 ++ l2) a w = (a' <- foldM f l1 a ;; foldM f l2 a') w.
Proof.
  revert a w. induction l1 as [|x l1 IH]; intros a w; [reflexivity|].
  simpl. unfold bind. destruct (f a x w); [|done|done].
  rewrite IH. reflexivity.
Qed.

Lemma foldM_ext {A B} (f g : A → B → M A) l a w :
  (∀ a x w, f a x w = g a x w) → foldM f l a w = foldM g l a w.
Proof.
  intros Hfg. revert a w. induction l as [|x l IH]; intros a w; [reflexivity|].
  simpl. unfold bind. rewrite Hfg. destruct (g a x w); [apply IH | done | done].
Qed.

Lemma empty_str_true s : empty_str s = true ↔ s = "".
Proof. by destruct s. Qed.

Lemma empty_str_false s : empty_str s = false ↔ s ≠ "".
Proof. by destruct s. Qed.

Lemma added_refl w : added w w [].
Proof. unfold added. by rewrite app_nil_r. Qed.

Lemma added_log w e : added w (log e w) [e].
Proof. reflexivity. Qed.

Lemma added_trans w1 w2 w3 e1 e2 :
  added w1 w2 e1 → added w2 w3 e2 → added w1 w3 (e1 ++ e2).
Proof. unfold added. intros -> ->. by rewrite app_assoc. Qed.

(** No event of a given shape occurs in an explicit list of events of
    other shapes. *)
Ltac not_in_events :=
  let H := fresh in
  intros H; repeat (apply elem_of_cons in H as [H|H]; [discriminate H|]);
  by apply elem_of_nil in H.

Lemma local_schemes_spec (s : string) :
  (s =? "file")%string || (s =? "trash")%string
  || (s =? "network")%string || (s =? "computer")%string = true
  ↔ s ∈ local_schemes.
Proof.
  unfold local_schemes. rewrite !orb_true_iff, !String.eqb_eq.
  rewrite !elem_of_cons, elem_of_nil. tauto.
Qed.

Lemma local_schemes_false (s : string) :
  (s =? "file")%string || (s =? "trash")%string
  || (s =? "network")%string || (s =? "computer")%string = false
  ↔ s ∉ local_schemes.
Proof.
  rewrite <- local_schemes_spec. destruct (_ || _); split; congruence.
Qed.

(** ** Shortcut resolution *)

Section Shortcut.

Variable P : Platform.
Variable L : Launcher.

(** What [launchWithApp] does on a list that is not empty. *)
Lemma launchWithApp_cons app p ps ctx w :
  let uris := fold_left (λ us q, uri P q :: us) (p :: ps) [] in
  let r := launch_uris P w app uris ctx in
  let w1 := log (ELaunchUris app uris ctx r.1 r.2) w in
  launchWithApp P L app (p :: ps) ctx w =
    if r.1 then Ok true w1
    else Ok false (log (EShowError ctx r.2 p None (v_showError L w1 ctx r.2 p None)) w1).
Proof.
  intros uris r w1. subst w1 r uris.
  unfold launchWithApp, bind, g_app_info_launch_uris, prim.
  destruct (launch_uris _ _ _ _ _) as [[|] err]; reflexivity.
Qed.

Lemma launchWithApp_cons_total app p ps ctx w :
  ∃ ok w', launchWithApp P L app (p :: ps) ctx w = Ok ok w'.
Proof. rewrite launchWithApp_cons. simpl. case_match; eauto. Qed.

(** What [handleShortcut] returns and does, by the scheme of the target. *)
Lemma handleShortcut_run (fi : FileInfo) (ctx : CtxPtr) (w : World) :
  let scheme := g_uri_parse_scheme P (target fi) in
  ∃ p w',
    handleShortcut P L fi ctx w = Ok p w'
    ∧ (isValid p = true ↔ queued_scheme scheme)
    ∧ match scheme with
      | None => p = fromLocalPath (target fi) ∧ w' = w
      | Some s =>
          (s ∈ local_schemes → p = fromUri (target fi) ∧ w' = w)
          ∧ (s ∉ local_schemes →
             p = NullPath
             ∧ ∃ ok err reports,
                 let handler := default_for_uri_scheme P w s in
                 added w w'
                   (EDefaultForUriScheme s handler
                    :: ELaunchUris handler [uri P (fromUri (target fi))] ctx ok err
                    :: reports)
                 ∧ (reports = []
                    ∨ ok = false
                      ∧ ∃ h, reports = [EShowError ctx err (fromUri (target fi)) None h]))
      end.
Proof.
  intros scheme. unfold handleShortcut. fold scheme. destruct scheme as [s|]; simpl.
  - destruct (_ || _) eqn:Hs.
    + apply local_schemes_spec in Hs. eexists _, _. split; [reflexivity|].
      split; [simpl; tauto|]. split; [done|]. intros Hn. by destruct Hn.
    + apply local_schemes_false in Hs.
      unfold bind at 1. unfold g_app_info_get_default_for_uri_scheme. rewrite prim_Ok.
      set (handler := default_for_uri_scheme P w s).
      set (w1 := log _ w).
      unfold bind. rewrite launchWithApp_cons. simpl.
      set (r := launch_uris P w1 handler _ ctx).
      destruct (r.1) eqn:Hr; eexists _, _; (split; [reflexivity|]);
        (split; [simpl; split; [done | intros; by destruct Hs]|]);
        (split; [intros; by destruct Hs|]); intros _; (split; [done|]).
      * exists true, (r.2), []. split; [|by left].
        unfold added. simpl. by rewrite <- app_assoc.
      * eexists false, (r.2), [_]. split; [|right; eauto].
        unfold added. simpl. by rewrite <- !app_assoc.
  - eexists _, _. split; [reflexivity|]. simpl. tauto.
Qed.

(** C4: a shortcut yields a path to queue exactly when its target has no
    scheme or one of the schemes file, trash, network, computer; for any
    other scheme no path comes back, the default handler of the scheme is
    looked up and launched at once with the URI of the target, and the
    classification loop queues nothing. *)
Theorem handleShortcut_queues_local_only (fi : FileInfo) (ctx : CtxPtr) (w : World) :
  let scheme := g_uri_parse_scheme P (target fi) in
  ∃ p w',
    handleShortcut P L fi ctx w = Ok p w'
    ∧ (isValid p = true ↔ queued_scheme scheme)
    ∧ match scheme with
      | None => p = fromLocalPath (target fi) ∧ w' = w
      | Some s =>
          (s ∈ local_schemes → p = fromUri (target fi) ∧ w' = w)
          ∧ (s ∉ local_schemes →
             p = NullPath
             ∧ ∃ ok err reports,
                 let handler := default_for_uri_scheme P w s in
                 added w w'
                   (EDefaultForUriScheme s handler
                    :: ELaunchUris handler [uri P (fromUri (target fi))] ctx ok err
                    :: reports)
                 ∧ (reports = []
                    ∨ ok = false
                      ∧ ∃ h, reports = [EShowError ctx err (fromUri (target fi)) None h]))
      end
    ∧ ∀ rec b, in_bucket Shortcut fi →
        ∃ b', classify P L rec ctx b fi w = Ok b' w'
              ∧ (queued_scheme scheme → b' = add_path p b)
              ∧ (¬ queued_scheme scheme → b' = b).
Proof.
  intros scheme.
  destruct (handleShortcut_run fi ctx w) as (p & w' & Hh & Hv & Hm). exists p, w'.
  split; [done|]. split; [done|]. split; [done|].
  intros rec b (Hd & Hmnt & Hde & Hx & Hsc). unfold classify.
  rewrite Hd, Hmnt, Hde, Hx, Hsc. rewrite (bind_Ok _ _ _ _ _ Hh).
  destruct (isValid p) eqn:Hp; unfold ret; eexists; (split; [reflexivity|]).
  - split; [done|]. intros Hn. destruct Hn. by apply Hv.
  - split; [|done]. intros Hq. apply Hv in Hq. congruence.
Qed.

End Shortcut.

Lemma handleShortcut_queues_local_only_witness :
  ∃ p w',
    handleShortcut (Demo.desktop true true (λ _, true) Demo.no_files)
      (Demo.helpful DIRECT_EXEC) (Demo.link_to "mailto:u@example.org") Demo.ctx0
      Demo.start = Ok p w'
    ∧ ∀ b, ∃ b',
        classify (Demo.desktop true true (λ _, true) Demo.no_files)
          (Demo.helpful DIRECT_EXEC) (λ _ _, ret true) Demo.ctx0 b
          (Demo.link_to "mailto:u@example.org") Demo.start = Ok b' w'
        ∧ b' = b.
Proof.
  destruct (handleShortcut_queues_local_only
              (Demo.desktop true true (λ _, true) Demo.no_files)
              (Demo.helpful DIRECT_EXEC) (Demo.link_to "mailto:u@example.org")
              Demo.ctx0 Demo.start) as (p & w' & Hrun & _ & _ & Hq).
  exists p, w'. split; [exact Hrun|].
  intros b. destruct (Hq (λ _ _, ret true) b) as (b' & Hc & _ & Hskip).
  - repeat split; reflexivity.
  - exists b'. split; [exact Hc|]. apply Hskip. vm_compute.
    intros H. repeat (apply elem_of_cons in H as [H|H]; [discriminate H|]).
    by apply elem_of_nil in H.
Defined.

Section NullHandler.

Variable P : Platform.
Variable L : Launcher.

(** C10: for a shortcut whose target has a scheme that is not one of file,
    trash, network, computer, and for which no default handler is
    registered, [handleShortcut] still calls [launchWithApp], with the null
    handle; nothing but what the launch primitive itself answers is ever
    reported. *)
Theorem handleShortcut_null_handler (fi : FileInfo) (ctx : CtxPtr) (w : World)
    (s : string) :
  g_uri_parse_scheme P (target fi) = Some s →
  s ∉ local_schemes →
  default_for_uri_scheme P w s = None →
  let w1 := log (EDefaultForUriScheme s None) w in
  let uris := [uri P (fromUri (target fi))] in
  let r := launch_uris P w1 None uris ctx in
  let w2 := log (ELaunchUris None uris ctx r.1 r.2) w1 in
  handleShortcut P L fi ctx w
    = (launchWithApp P L None [fromUri (target fi)] ctx ;; ret NullPath) w1
  ∧ handleShortcut P L fi ctx w
    = Ok NullPath
        (if r.1 then w2
         else log (EShowError ctx r.2 (fromUri (target fi)) None
                     (v_showError L w2 ctx r.2 (fromUri (target fi)) None)) w2).
Proof.
  intros Hs Hn Hnone w1 uris r w2.
  assert (Heq : handleShortcut P L fi ctx w
    = (launchWithApp P L None [fromUri (target fi)] ctx ;; ret NullPath) w1).
  { unfold handleShortcut. rewrite Hs. apply local_schemes_false in Hn. rewrite Hn.
    unfold bind at 1. unfold g_app_info_get_default_for_uri_scheme.
    rewrite prim_Ok, Hnone. reflexivity. }
  split; [exact Heq|]. rewrite Heq. unfold bind.
  rewrite launchWithApp_cons. simpl. fold uris. fold r. fold w2.
  by destruct (r.1).
Qed.

End NullHandler.

Lemma handleShortcut_null_handler_witness :
  ∃ w', handleShortcut (Demo.desktop false false (λ _, true) Demo.no_files)
          BasicFileLauncher (Demo.link_to "mailto:u@example.org")
          Demo.ctx0 Demo.start = Ok NullPath w'
        ∧ ∃ ok err, ELaunchUris None ["mailto:u@example.org"] Demo.ctx0 ok err ∈ trace w'.
Proof.
  destruct (handleShortcut_null_handler
              (Demo.desktop false false (λ _, true) Demo.no_files) BasicFileLauncher
              (Demo.link_to "mailto:u@example.org") Demo.ctx0 Demo.start "mailto")
    as [_ Hrun].
  - reflexivity.
  - intros H. repeat (apply elem_of_cons in H as [H|H]; [discriminate H|]).
    by apply elem_of_nil in H.
  - reflexivity.
  - eexists. split; [exact Hrun|]. vm_compute. eexists _, _.
    apply list_elem_of_further, list_elem_of_here.
Defined.

(** ** The unchecked read of the first path *)

Section FrontUnchecked.

Variable P : Platform.
Variable L : Launcher.

Lemma launchWithApp_nil app ctx w :
  let r := launch_uris P w app [] ctx in
  let w1 := log (ELaunchUris app [] ctx r.1 r.2) w in
  launchWithApp P L app [] ctx w = if r.1 then Ok true w1 else OutOfBounds w1.
Proof.
  intros r w1. subst w1 r.
  unfold launchWithApp, bind, g_app_info_launch_uris, prim.
  destruct (launch_uris _ _ _ _ _) as [[|] err]; reflexivity.
Qed.

Lemma launchDesktopEntry_name_eq name ps ctx w :
  let w1 := log (registry_event P name (registry_app P w name)) w in
  launchDesktopEntry_name P L name ps ctx w =
    match registry_app P w name with
    | Some a => launchWithApp P L (Some a) ps ctx w1
    | None =>
        let err := Some {| code := G_IO_ERROR_FAILED;
                           message := "Invalid desktop entry file: '" +:+ name +:+ "'" |} in
        Ok false (log (EShowError ctx err NullPath None
                         (v_showError L w1 ctx err NullPath None)) w1)
    end.
Proof.
  intros w1. subst w1. unfold launchDesktopEntry_name, registry_app, registry_event.
  unfold bind at 1.
  destruct (g_path_is_absolute P name);
    unfold g_desktop_app_info_new_from_filename, g_desktop_app_info_new;
    rewrite prim_Ok; by case_match.
Qed.

Lemma launchDesktopEntry_plain rec fi ps ctx w :
  isExecutableType fi = false →
  launchDesktopEntry P L rec fi ps ctx w =
    if isNative fi || hasUriScheme P (path fi) "menu" then
      match entry_id P fi with
      | Some name => launchDesktopEntry_name P L name ps ctx w
      | None => Ok false w
      end
    else Ok false w.
Proof.
  intros Hx. unfold launchDesktopEntry, entry_id. rewrite Hx.
  destruct (_ || _); [|reflexivity].
  destruct (empty_str (target fi)); simpl; [|reflexivity].
  unfold bind, ret. by destruct (localPath P (path fi)).
Qed.

(** C9: [launchWithApp] reads [paths[0]] in its error branch without
    looking at the size of the list, so the call is undefined exactly when
    the list is empty and the launch fails; [launchFiles] hands the empty
    list to the desktop-entry path, so a desktop entry whose application is
    found and whose launch fails runs into that read. *)
Theorem launchWithApp_front_unchecked :
  (∀ app ps ctx w,
     (∃ w', launchWithApp P L app ps ctx w = OutOfBounds w')
     ↔ ps = [] ∧ (launch_uris P w app [] ctx).1 = false)
  ∧ (∀ n fi rest ctx w name a,
       in_bucket DesktopEntry fi →
       isExecutableType fi = false →
       isNative fi || hasUriScheme P (path fi) "menu" = true →
       entry_id P fi = Some name →
       registry_app P w name = Some a →
       let w1 := log (registry_event P name (Some a)) w in
       (launch_uris P w1 (Some a) [] ctx).1 = false →
       launchFiles P L (S n) (fi :: rest) ctx w
       = OutOfBounds (log (ELaunchUris (Some a) [] ctx false
                             (launch_uris P w1 (Some a) [] ctx).2) w1)).
Proof.
  split.
  - intros app ps ctx w. destruct ps as [|p ps].
    + rewrite launchWithApp_nil. simpl. destruct (_.1); split.
      * intros [? ?]; done.
      * intros [_ ?]; done.
      * done.
      * eauto.
    + rewrite launchWithApp_cons. simpl. split.
      * intros [w' Hw]. by case_match.
      * intros [? _]; done.
  - intros n fi rest ctx w name a (Hd & Hm & He) Hx Hnat Hid Hreg w1 Hfail.
    simpl. unfold launchFiles_body. apply bind_OutOfBounds.
    rewrite foldM_cons. apply bind_OutOfBounds.
    unfold classify. rewrite Hd, Hm, He. apply bind_OutOfBounds.
    rewrite launchDesktopEntry_plain by done. rewrite Hnat, Hid.
    rewrite launchDesktopEntry_name_eq, Hreg. rewrite launchWithApp_nil. simpl.
    fold w1. by rewrite Hfail.
Qed.

End FrontUnchecked.

Lemma launchWithApp_front_unchecked_witness :
  ∃ w', launchFiles (Demo.desktop true false (λ _, true) Demo.no_files)
          (Demo.helpful DIRECT_EXEC) 1 [Demo.app_desktop] Demo.ctx0 Demo.start
        = OutOfBounds w'.
Proof.
  eexists.
  apply (proj2 (launchWithApp_front_unchecked
                  (Demo.desktop true false (λ _, true) Demo.no_files)
                  (Demo.helpful DIRECT_EXEC))
           0%nat Demo.app_desktop [] Demo.ctx0 Demo.start
           "/usr/share/applications/app.desktop"
           (AppInfo "/usr/share/applications/app.desktop")).
  - repeat split; reflexivity.
  - reflexivity.
  - reflexivity.
  - reflexivity.
  - reflexivity.
  - reflexivity.
Defined.

(** ** The classification loop *)

Section Classification.

Variable P : Platform.
Variable L : Launcher.

Lemma classify_bucket_action rec ctx b f w :
  classify P L rec ctx b f w = bucket_action P L rec (bucket_of f) ctx b f w.
Proof.
  unfold classify, bucket_of.
  destruct (isDir f); [reflexivity|].
  destruct (isMountable f).
  - destruct (empty_str (target f)); [|reflexivity].
    simpl. unfold bind, showError, prim, not_mounted.
    by destruct (v_showError _ _ _ _ _ _).
  - destruct (isDesktopEntry f); [reflexivity|].
    destruct (isExecutableType f); [reflexivity|].
    destruct (isShortcut f); [|reflexivity].
    simpl. unfold bind. destruct (handleShortcut _ _ _ _ _) as [p ?| |]; try done.
    by destruct (isValid p).
Qed.

(** C1: every file reference lies in exactly one of the seven buckets, the
    one found by testing directory, mountable, desktop entry, executable,
    shortcut in this order, and one round of the classification loop does
    what belongs to that bucket and nothing else.  A call of [launchFiles]
    handles the references of its input one by one in this way, each under
    its one bucket, in the order of the input, and only then turns to the
    batches. *)
Theorem classify_exactly_one_bucket (fi : FileInfo) :
  in_bucket (bucket_of fi) fi
  ∧ (∀ k, in_bucket k fi → k = bucket_of fi)
  ∧ (∀ rec ctx b w,
       classify P L rec ctx b fi w = bucket_action P L rec (bucket_of fi) ctx b fi w)
  ∧ (∀ rec ctx infos b w,
       foldM (classify P L rec ctx) infos b w
       = foldM (λ b fi, bucket_action P L rec (bucket_of fi) ctx b fi) infos b w)
  ∧ (∀ n infos ctx w,
       launchFiles P L (S n) infos ctx w
       = (b <- foldM (λ b fi, bucket_action P L (launchFiles P L n) (bucket_of fi) ctx b fi)
                 infos no_buckets ;;
          launch_batches P L (launchFiles P L n) ctx b) w).
Proof.
  split; [|split; [|split; [|split]]].
  - unfold bucket_of, in_bucket.
    destruct (isDir fi); [done|]. destruct (isMountable fi).
    + destruct (empty_str (target fi)) eqn:Ht.
      * by apply empty_str_true in Ht.
      * by apply empty_str_false in Ht.
    + destruct (isDesktopEntry fi); [done|].
      destruct (isExecutableType fi); [done|].
      by destruct (isShortcut fi).
  - intros k Hk. unfold bucket_of.
    destruct k; simpl in Hk; destruct_and?;
      repeat match goal with H : _ = _ |- _ => rewrite H end; try done.
    match goal with H : target fi ≠ "" |- _ => apply empty_str_false in H; by rewrite H end.
  - intros. apply classify_bucket_action.
  - intros. apply foldM_ext. intros. apply classify_bucket_action.
  - intros n infos ctx w.
    change (launchFiles P L (S n) infos ctx w)
      with ((b <- foldM (classify P L (launchFiles P L n) ctx) infos no_buckets ;;
             launch_batches P L (launchFiles P L n) ctx b) w).
    unfold bind.
    rewrite (foldM_ext _ (λ b fi, bucket_action P L (launchFiles P L n)
                                    (bucket_of fi) ctx b fi)); [done|].
    intros. apply classify_bucket_action.
Qed.


End Classification.

Lemma classify_exactly_one_bucket_witness :
  in_bucket Executable Demo.run_sh
  ∧ (∀ k, in_bucket k Demo.run_sh → k = Executable)
  ∧ launchFiles (Demo.desktop true true (λ _, true) Demo.no_files) BasicFileLauncher 1
      [Demo.docs; Demo.volume ""] Demo.ctx0 Demo.start
    = Ok true
        {| cwd := "/srv/start";
           trace := [EShowError Demo.ctx0 not_mounted (fromUri "computer:///disk.drive")
                       (Some (Demo.volume "")) false;
                     EChooseApp [Demo.docs] "inode/directory" None None;
                     EShowError Demo.ctx0 None NullPath None false] |}.
Proof.
  destruct (classify_exactly_one_bucket
              (Demo.desktop true true (λ _, true) Demo.no_files) BasicFileLauncher
              Demo.run_sh) as (Hin & Huniq & _ & _ & Hcall).
  split; [exact Hin|]. split; [exact Huniq|].
  rewrite Hcall. reflexivity.
Defined.


(** ** Launching an executable *)

Section Exec.

Variable P : Platform.
Variable L : Launcher.

Lemma chdirs_app evs1 evs2 : chdirs (evs1 ++ evs2) = chdirs evs1 ++ chdirs evs2.
Proof. apply omap_app. Qed.

(** The run of the shared body of direct and terminal execution: it
    returns; its first event is the creation of the application from the
    quoted file name with the flags it was given, and no second creation
    follows; the working directory is treated in one of the four ways of
    [cwd_outcome]. *)
Lemma direct_exec_run (f : string) (flags : Z) (ctx : CtxPtr) (w : World) :
  ∃ r w' evs,
    direct_exec P L f flags ctx w = Ok r w'
    ∧ added w w'
        (ECreateFromCommandline (g_shell_quote P f) flags
           (create_from_commandline P w (g_shell_quote P f) flags) :: evs)
    ∧ (∀ c fl a, ECreateFromCommandline c fl a ∉ evs)
    ∧ cwd_outcome (cwd w) (g_path_get_dirname P f) (chdirs evs) (cwd w').
Proof.
  unfold direct_exec, bind, fm_app_info_create_from_commandline. rewrite prim_Ok.
  set (w1 := log _ w).
  assert (H1 : added w w1 [ECreateFromCommandline (g_shell_quote P f) flags
           (create_from_commandline P w (g_shell_quote P f) flags)]) by apply added_log.
  assert (Hc1 : cwd w1 = cwd w) by reflexivity.
  clearbody w1.
  destruct (create_from_commandline P w (g_shell_quote P f) flags) as [a|].
  2:{ exists false, w1, []. unfold ret. split; [done|]. split; [done|].
      split; [intros; not_in_events|]. rewrite Hc1. constructor. }
  destruct (g_path_get_dirname P f =? ".")%string eqn:Hdot; simpl.
  - unfold ret, fm_app_info_launch, showError, prim.
    destruct (app_info_launch P w1 a ctx) as [[|] err]; simpl;
      eexists _, _, _; (split; [reflexivity|]);
      (split; [unfold added in *; simpl; rewrite H1, <- ?app_assoc; simpl; reflexivity|]);
      (split; [intros; not_in_events|]); simpl; rewrite Hc1; constructor.
  - apply String.eqb_neq in Hdot.
    unfold g_get_current_dir, chdir, ret, fm_app_info_launch, showError, prim.
    destruct (chdir_errno P w1 (g_path_get_dirname P f)) as [e|]; simpl.
    + match goal with |- context [app_info_launch P ?x a ctx] =>
        destruct (app_info_launch P x a ctx) as [[|] err] end; simpl;
        eexists _, _, _; (split; [reflexivity|]);
        (split; [unfold added in *; simpl; rewrite H1, <- ?app_assoc; simpl; reflexivity|]);
        (split; [intros; not_in_events|]); simpl; rewrite Hc1; by constructor.
    + match goal with |- context [app_info_launch P ?x a ctx] =>
        destruct (app_info_launch P x a ctx) as [[|] err] end; simpl;
        match goal with |- context [chdir_errno P ?x (cwd w1)] =>
          destruct (chdir_errno P x (cwd w1)) as [e|] end; simpl;
        eexists _, _, _; (split; [reflexivity|]);
        (split; [unfold added in *; simpl; rewrite H1, <- ?app_assoc; simpl; reflexivity|]);
        (split; [intros; not_in_events|]); simpl; rewrite Hc1; by constructor.
Qed.

Lemma launchWithDefaultApp_run (fi : FileInfo) (ctx : CtxPtr) (w : World) :
  ∃ r w' evs,
    launchWithDefaultApp P L fi ctx w = Ok r w'
    ∧ added w w' evs
    ∧ (∀ c fl a, ECreateFromCommandline c fl a ∉ evs)
    ∧ chdirs evs = []
    ∧ cwd w' = cwd w.
Proof.
  unfold launchWithDefaultApp, bind, g_app_info_get_default_for_type. rewrite prim_Ok.
  destruct (default_for_type P w (mimeType fi)) as [a|].
  - simpl. rewrite launchWithApp_cons. simpl.
    destruct (launch_uris _ _ _ _ _) as [[|] err]; simpl;
      eexists _, _, _; (split; [reflexivity|]);
      (split; [unfold added; simpl; rewrite <- ?app_assoc; simpl; reflexivity|]);
      (split; [intros; not_in_events | done]).
  - unfold showError, prim, ret. eexists _, _, _. split; [reflexivity|].
    split; [unfold added; simpl; rewrite <- ?app_assoc; simpl; reflexivity|].
    split; [intros; not_in_events | done].
Qed.

Lemma launchExecutable_eq (fi : FileInfo) (ctx : CtxPtr) (w : World) (f : string) :
  localPath P (path fi) = Some f →
  file_test_is_executable P w f = true →
  let w1 := log (EFileTestIsExecutable f true) w in
  let act := chosen_action L fi w1 in
  let w2 := if quickExec_ L then w1 else log (EAskExecFile fi act) w1 in
  launchExecutable P L fi ctx w =
    match act with
    | EXEC_IN_TERMINAL => direct_exec P L f G_APP_INFO_CREATE_NEEDS_TERMINAL ctx w2
    | DIRECT_EXEC => direct_exec P L f G_APP_INFO_CREATE_NONE ctx w2
    | OPEN_WITH_DEFAULT_APP => launchWithDefaultApp P L fi ctx w2
    | CANCEL | NONE => Ok false w2
    end.
Proof.
  intros Hf Hok w1 act w2. subst w2 act. unfold launchExecutable, chosen_action.
  rewrite Hf. unfold bind at 1. unfold g_file_test_is_executable.
  rewrite prim_Ok, Hok. fold w1. unfold bind.
  destruct (quickExec_ L); [reflexivity|].
  unfold askExecFile. rewrite prim_Ok. by destruct (v_askExecFile L w1 fi).
Qed.

(** [launchExecutable] always returns, and its [chdir] calls and final
    working directory are one of the four ways of [cwd_outcome]. *)
Lemma launchExecutable_run (fi : FileInfo) (ctx : CtxPtr) (w : World) :
  ∃ r w' evs,
    launchExecutable P L fi ctx w = Ok r w'
    ∧ added w w' evs
    ∧ match localPath P (path fi) with
      | Some f =>
          cwd_outcome (cwd w) (g_path_get_dirname P f) (chdirs evs) (cwd w')
      | None => w' = w
      end.
Proof.
  destruct (localPath P (path fi)) as [f|] eqn:Hf.
  2:{ exists false, w, []. unfold launchExecutable. rewrite Hf.
      split; [done|]. split; [apply added_refl | done]. }
  destruct (file_test_is_executable P w f) eqn:Hok.
  2:{ eexists false, _, [_]. unfold launchExecutable. rewrite Hf.
      unfold bind, g_file_test_is_executable. rewrite prim_Ok, Hok.
      split; [reflexivity|]. split; [reflexivity | constructor]. }
  rewrite (launchExecutable_eq fi ctx w f Hf Hok). simpl.
  set (w1 := log (EFileTestIsExecutable f true) w).
  set (w2 := if quickExec_ L then w1 else log _ w1).
  assert (H2 : ∃ pre, added w w2 pre ∧ chdirs pre = [] ∧ cwd w2 = cwd w).
  { subst w2. destruct (quickExec_ L).
    - by exists [EFileTestIsExecutable f true].
    - eexists [_; _]. split; [unfold added; simpl; by rewrite <- app_assoc | done]. }
  destruct H2 as (pre & H2 & Hpre & Hc). clearbody w2.
  assert (Hexec : ∀ fl, ∃ r w' evs,
    direct_exec P L f fl ctx w2 = Ok r w'
    ∧ added w w' evs
    ∧ cwd_outcome (cwd w) (g_path_get_dirname P f) (chdirs evs) (cwd w')).
  { intros fl.
    destruct (direct_exec_run f fl ctx w2) as (r & w' & evs & Hr & Hadd & _ & Hcwd).
    exists r, w'. eexists. split; [done|].
    split; [apply (added_trans w w2 w' _ _ H2 Hadd)|].
    rewrite chdirs_app, Hpre. simpl. by rewrite <- Hc. }
  assert (Hnone : ∃ r w' evs, Ok false w2 = Ok r w' ∧ added w w' evs
    ∧ cwd_outcome (cwd w) (g_path_get_dirname P f) (chdirs evs) (cwd w')).
  { exists false, w2, pre. split; [done|]. split; [done|]. rewrite Hpre, Hc. constructor. }
  destruct (chosen_action L fi w1); try apply Hnone; try apply Hexec.
  destruct (launchWithDefaultApp_run fi ctx w2)
    as (r & w' & evs & Hr & Hadd & _ & Hch & Hcwd).
  exists r, w'. eexists. split; [done|].
  split; [apply (added_trans w w2 w' _ _ H2 Hadd)|].
  rewrite chdirs_app, Hpre, Hch, Hcwd, Hc. constructor.
Qed.

Lemma exec_steps_app evs1 evs2 :
  exec_steps (evs1 ++ evs2) = exec_steps evs1 ++ exec_steps evs2.
Proof. apply omap_app. Qed.

(** The steps of the shared body of direct and terminal execution, in
    their order. *)
Lemma direct_exec_steps (f : string) (flags : Z) (ctx : CtxPtr) (w : World) :
  ∃ r w' evs,
    direct_exec P L f flags ctx w = Ok r w'
    ∧ added w w' evs
    ∧ exec_outcome (cwd w) (g_path_get_dirname P f) (exec_steps evs) (cwd w').
Proof.
  unfold direct_exec, bind, fm_app_info_create_from_commandline. rewrite prim_Ok.
  set (c0 := create_from_commandline P w (g_shell_quote P f) flags).
  set (w1 := log _ w).
  assert (H1 : added w w1 [ECreateFromCommandline (g_shell_quote P f) flags c0])
    by apply added_log.
  assert (Hc1 : cwd w1 = cwd w) by reflexivity.
  clearbody w1 c0. destruct c0 as [a|].
  2:{ exists false, w1. eexists. unfold ret. split; [done|]. split; [exact H1|].
      rewrite Hc1. by constructor. }
  destruct (g_path_get_dirname P f =? ".")%string eqn:Hdot; simpl.
  - apply String.eqb_eq in Hdot.
    unfold ret, fm_app_info_launch, showError, prim.
    destruct (app_info_launch P w1 a ctx) as [[|] err]; simpl;
      eexists _, _, _; (split; [reflexivity|]);
      (split; [unfold added in *; simpl; rewrite H1, <- ?app_assoc; simpl; reflexivity|]);
      simpl; rewrite Hc1; apply (exec_in_place _ _ a); (done || constructor).
  - apply String.eqb_neq in Hdot.
    unfold g_get_current_dir, chdir, ret, fm_app_info_launch, showError, prim.
    destruct (chdir_errno P w1 (g_path_get_dirname P f)) as [e|]; simpl.
    + match goal with |- context [app_info_launch P ?x a ctx] =>
        destruct (app_info_launch P x a ctx) as [[|] err] end; simpl;
        eexists _, _, _; (split; [reflexivity|]);
        (split; [unfold added in *; simpl; rewrite H1, <- ?app_assoc; simpl; reflexivity|]);
        simpl; rewrite Hc1; apply (exec_not_entered _ _ e _ a); (done || constructor).
    + match goal with |- context [app_info_launch P ?x a ctx] =>
        destruct (app_info_launch P x a ctx) as [[|] err] end; simpl;
        match goal with |- context [chdir_errno P ?x (cwd w1)] =>
          destruct (chdir_errno P x (cwd w1)) as [e|] end; simpl;
        eexists _, _, _; (split; [reflexivity|]);
        (split; [unfold added in *; simpl; rewrite H1, <- ?app_assoc; simpl; reflexivity|]);
        simpl; rewrite Hc1;
        first [ apply (exec_restored _ _ a [StepLaunch a true]); (done || constructor)
              | apply (exec_restored _ _ a [StepLaunch a false; StepReport err]);
                (done || constructor)
              | apply (exec_not_restored _ _ a [StepLaunch a true] e); (done || constructor)
              | apply (exec_not_restored _ _ a [StepLaunch a false; StepReport err] e);
                (done || constructor) ].
Qed.

Lemma launchExecutable_steps (fi : FileInfo) (ctx : CtxPtr) (w : World) :
  ∃ r w' evs,
    launchExecutable P L fi ctx w = Ok r w'
    ∧ added w w' evs
    ∧ match localPath P (path fi) with
      | Some f =>
          cwd_outcome (cwd w) (g_path_get_dirname P f) (chdirs evs) (cwd w')
          ∧ exec_outcome (cwd w) (g_path_get_dirname P f) (exec_steps evs) (cwd w')
      | None => w' = w
      end.
Proof.
  destruct (localPath P (path fi)) as [f|] eqn:Hf.
  2:{ exists false, w, []. unfold launchExecutable. rewrite Hf.
      split; [done|]. split; [apply added_refl | done]. }
  destruct (file_test_is_executable P w f) eqn:Hok.
  2:{ eexists false, _, [_]. unfold launchExecutable. rewrite Hf.
      unfold bind, g_file_test_is_executable. rewrite prim_Ok, Hok.
      split; [reflexivity|]. split; [reflexivity|]. split; by constructor. }
  rewrite (launchExecutable_eq fi ctx w f Hf Hok). simpl.
  set (w1 := log (EFileTestIsExecutable f true) w).
  set (w2 := if quickExec_ L then w1 else log _ w1).
  assert (H2 : ∃ pre, added w w2 pre ∧ chdirs pre = [] ∧ exec_steps pre = []
                      ∧ cwd w2 = cwd w).
  { subst w2. destruct (quickExec_ L).
    - by exists [EFileTestIsExecutable f true].
    - eexists [_; _]. split; [unfold added; simpl; by rewrite <- app_assoc | done]. }
  destruct H2 as (pre & H2 & Hpre & Hpre' & Hc). clearbody w2.
  assert (Hexec : ∀ fl, ∃ r w' evs,
    direct_exec P L f fl ctx w2 = Ok r w'
    ∧ added w w' evs
    ∧ cwd_outcome (cwd w) (g_path_get_dirname P f) (chdirs evs) (cwd w')
    ∧ exec_outcome (cwd w) (g_path_get_dirname P f) (exec_steps evs) (cwd w')).
  { intros fl.
    destruct (direct_exec_run f fl ctx w2) as (r & w' & evs & Hr & Hadd & _ & Hcwd).
    destruct (direct_exec_steps f fl ctx w2) as (r' & w'' & evs' & Hr' & Hadd' & Hst).
    rewrite Hr in Hr'. injection Hr' as <- <-.
    assert (evs' = ECreateFromCommandline (g_shell_quote P f) fl
                     (create_from_commandline P w2 (g_shell_quote P f) fl) :: evs) as ->.
    { unfold added in *. rewrite Hadd in Hadd'. by apply app_inv_head in Hadd'. }
    exists r, w'. eexists. split; [done|].
    split; [apply (added_trans w w2 w' _ _ H2 Hadd)|].
    rewrite chdirs_app, exec_steps_app, Hpre, Hpre'. simpl. rewrite <- Hc.
    split; [done|]. exact Hst. }
  assert (Hnone : ∃ r w' evs, Ok false w2 = Ok r w' ∧ added w w' evs
    ∧ cwd_outcome (cwd w) (g_path_get_dirname P f) (chdirs evs) (cwd w')
    ∧ exec_outcome (cwd w) (g_path_get_dirname P f) (exec_steps evs) (cwd w')).
  { exists false, w2, pre. split; [done|]. split; [done|]. rewrite Hpre, Hpre', Hc.
    split; by constructor. }
  destruct (chosen_action L fi w1); try apply Hnone; try apply Hexec.
  unfold launchWithDefaultApp, bind, g_app_info_get_default_for_type.
  rewrite prim_Ok. destruct (default_for_type P w2 (mimeType fi)) as [a|].
  - simpl. rewrite launchWithApp_cons. simpl.
    destruct (launch_uris _ _ _ _ _) as [[|] err]; simpl;
      eexists _, _, (pre ++ _); (split; [reflexivity|]);
      (split; [unfold added in *; simpl; rewrite H2, <- ?app_assoc; simpl; reflexivity|]);
      rewrite chdirs_app, exec_steps_app, Hpre, Hpre'; simpl; rewrite Hc;
      (split; [constructor | constructor; by repeat constructor]).
  - unfold showError, prim, ret. eexists _, _, (pre ++ _). split; [reflexivity|].
    split; [unfold added in *; simpl; rewrite H2, <- ?app_assoc; simpl; reflexivity|].
    rewrite chdirs_app, exec_steps_app, Hpre, Hpre'. simpl. rewrite Hc.
    split; [constructor | constructor; by repeat constructor].
Qed.

(** C7 as amended: a call of [launchExecutable] always returns.  Either
    nothing is launched and no [chdir] is made; or the folder of the
    executable is ["."] and the launch is made in place; or the [chdir] to
    the folder fails, which is reported, and the launch is made all the
    same; or the [chdir] to the folder works, the launch is made (and
    reported when it fails), and after it, as the last step of the call,
    one [chdir] back to the old working directory is made.  The working
    directory at the end is the old one in all cases but one: when the
    [chdir] back fails, which is not reported, it is still the folder of
    the executable. *)
Theorem launchExecutable_restores_cwd (fi : FileInfo) (ctx : CtxPtr) (w : World) :
  ∃ r w' evs,
    launchExecutable P L fi ctx w = Ok r w'
    ∧ added w w' evs
    ∧ match localPath P (path fi) with
      | Some f =>
          cwd_outcome (cwd w) (g_path_get_dirname P f) (chdirs evs) (cwd w')
          ∧ exec_outcome (cwd w) (g_path_get_dirname P f) (exec_steps evs) (cwd w')
      | None => w' = w
      end.
Proof. apply launchExecutable_steps. Qed.

(** C7 as the specification states it fails: when the old working
    directory cannot be entered again, the call returns with the working
    directory still changed. *)
Lemma launchExecutable_cwd_not_restored :
  ¬ (∀ P L fi ctx w r w',
       launchExecutable P L fi ctx w = Ok r w' → cwd w' = cwd w).
Proof.
  intros H.
  specialize (H (Demo.desktop true true (λ d, d =? "/home/u")%string Demo.no_files)
                BasicFileLauncher Demo.run_sh Demo.ctx0 Demo.start true
                {| cwd := "/home/u";
                   trace := [EFileTestIsExecutable "/home/u/run.sh" true;
                             EAskExecFile Demo.run_sh DIRECT_EXEC;
                             ECreateFromCommandline "'/home/u/run.sh'" 0
                               (Some (AppInfo "'/home/u/run.sh'"));
                             EChdir "/home/u" None;
                             EFmAppInfoLaunch (AppInfo "'/home/u/run.sh'") Demo.ctx0 true None;
                             EChdir "/srv/start" (Some 13)] |} eq_refl).
  discriminate H.
Qed.

(** C8: [launchExecutable] acts only after a file test on the local path
    said that the file is executable, and whenever it creates an
    application from the command line, the command line is the quoted file
    name and the creation flags ask for a terminal exactly when the chosen
    action is execution in a terminal; under direct execution the flags
    are empty. *)
Theorem launchExecutable_terminal_flag (fi : FileInfo) (ctx : CtxPtr) (w : World) :
  match localPath P (path fi) with
  | None => launchExecutable P L fi ctx w = Ok false w
  | Some f =>
      let ok := file_test_is_executable P w f in
      let act := chosen_action L fi (log (EFileTestIsExecutable f ok) w) in
      ∃ r w' evs,
        launchExecutable P L fi ctx w = Ok r w'
        ∧ added w w' (EFileTestIsExecutable f ok :: evs)
        ∧ (ok = false → evs = [] ∧ r = false)
        ∧ (∀ c fl a, ECreateFromCommandline c fl a ∈ evs →
             c = g_shell_quote P f
             ∧ (needs_terminal fl = true ↔ act = EXEC_IN_TERMINAL)
             ∧ (act = DIRECT_EXEC → fl = G_APP_INFO_CREATE_NONE))
        ∧ (ok = true → act = EXEC_IN_TERMINAL ∨ act = DIRECT_EXEC →
           ∃ fl a, ECreateFromCommandline (g_shell_quote P f) fl a ∈ evs)
  end.
Proof.
  destruct (localPath P (path fi)) as [f|] eqn:Hf.
  2:{ unfold launchExecutable. by rewrite Hf. }
  intros ok act. subst ok act.
  destruct (file_test_is_executable P w f) eqn:Hok.
  2:{ eexists false, _, []. unfold launchExecutable. rewrite Hf.
      unfold bind, g_file_test_is_executable. rewrite prim_Ok, Hok.
      split; [reflexivity|]. split; [reflexivity|]. split; [done|].
      split; [|done]. intros c fl a Hin. by apply elem_of_nil in Hin. }
  rewrite (launchExecutable_eq fi ctx w f Hf Hok). simpl.
  set (w1 := log (EFileTestIsExecutable f true) w).
  set (act := chosen_action L fi w1).
  set (w2 := if quickExec_ L then w1 else log (EAskExecFile fi act) w1).
  assert (H2 : ∃ pre, added w w2 (EFileTestIsExecutable f true :: pre)
                      ∧ ∀ c fl a, ECreateFromCommandline c fl a ∉ pre).
  { subst w2. destruct (quickExec_ L).
    - exists []. split; [apply added_log | intros; not_in_events].
    - exists [EAskExecFile fi act]. split; [|intros; not_in_events].
      unfold added. simpl. by rewrite <- app_assoc. }
  destruct H2 as (pre & H2 & Hpre). clearbody w2.
  assert (Hexec : ∀ fl0,
    (needs_terminal fl0 = true ↔ act = EXEC_IN_TERMINAL) →
    (act = DIRECT_EXEC → fl0 = G_APP_INFO_CREATE_NONE) →
    ∃ r w' evs,
      direct_exec P L f fl0 ctx w2 = Ok r w'
      ∧ added w w' (EFileTestIsExecutable f true :: evs)
      ∧ (true = false → evs = [] ∧ r = false)
      ∧ (∀ c fl a, ECreateFromCommandline c fl a ∈ evs →
           c = g_shell_quote P f
           ∧ (needs_terminal fl = true ↔ act = EXEC_IN_TERMINAL)
           ∧ (act = DIRECT_EXEC → fl = G_APP_INFO_CREATE_NONE))
      ∧ (true = true → act = EXEC_IN_TERMINAL ∨ act = DIRECT_EXEC →
         ∃ fl a, ECreateFromCommandline (g_shell_quote P f) fl a ∈ evs)).
  { intros fl0 Hterm Hdirect.
    destruct (direct_exec_run f fl0 ctx w2) as (r & w' & evs & Hr & Hadd & Hno & _).
    exists r, w', (pre ++ ECreateFromCommandline (g_shell_quote P f) fl0
                     (create_from_commandline P w2 (g_shell_quote P f) fl0) :: evs).
    split; [done|]. split.
    { unfold added in *. rewrite Hadd, H2. by rewrite <- app_assoc. }
    split; [done|]. split.
    - intros c fl a Hin. apply elem_of_app in Hin as [Hin|Hin]; [by apply Hpre in Hin|].
      apply elem_of_cons in Hin as [Hin|Hin]; [|by apply Hno in Hin].
      by simplify_eq.
    - intros _ _. eexists _, _. apply elem_of_app. right. apply list_elem_of_here. }
  assert (Hnone : ∀ r w' evs,
    added w2 w' evs → (∀ c fl a, ECreateFromCommandline c fl a ∉ evs) →
    act ≠ EXEC_IN_TERMINAL → act ≠ DIRECT_EXEC →
    ∃ evs',
      added w w' (EFileTestIsExecutable f true :: evs')
      ∧ (true = false → evs' = [] ∧ r = false)
      ∧ (∀ c fl a, ECreateFromCommandline c fl a ∈ evs' →
           c = g_shell_quote P f
           ∧ (needs_terminal fl = true ↔ act = EXEC_IN_TERMINAL)
           ∧ (act = DIRECT_EXEC → fl = G_APP_INFO_CREATE_NONE))
      ∧ (true = true → act = EXEC_IN_TERMINAL ∨ act = DIRECT_EXEC →
         ∃ fl a, ECreateFromCommandline (g_shell_quote P f) fl a ∈ evs')).
  { intros r w' evs Hadd Hno Ht Hd. exists (pre ++ evs). split.
    { unfold added in *. rewrite Hadd, H2. by rewrite <- app_assoc. }
    split; [done|]. split.
    - intros c fl a Hin. apply elem_of_app in Hin as [Hin|Hin];
        [by apply Hpre in Hin | by apply Hno in Hin].
    - intros _ [?|?]; done. }
  destruct act eqn:Hact.
  - destruct (Hnone false w2 []) as (evs' & ?);
      [apply added_refl | intros; not_in_events | done | done |].
    by exists false, w2, evs'.
  - apply Hexec; [|done]. split; [done|]. by vm_compute.
  - apply Hexec; [|done]. split; [done|]. by vm_compute.
  - destruct (launchWithDefaultApp_run fi ctx w2) as (r & w' & evs & Hr & Hadd & Hno & _).
    destruct (Hnone r w' evs) as (evs' & ?); try done. by exists r, w', evs'.
  - destruct (Hnone false w2 []) as (evs' & ?);
      [apply added_refl | intros; not_in_events | done | done |].
    by exists false, w2, evs'.
Qed.

End Exec.

Lemma launchExecutable_terminal_flag_witness :
  ∃ r w' evs,
    launchExecutable (Demo.desktop true true (λ _, true) Demo.no_files)
      (Demo.helpful EXEC_IN_TERMINAL) Demo.run_sh Demo.ctx0 Demo.start = Ok r w'
    ∧ added Demo.start w' (EFileTestIsExecutable "/home/u/run.sh" true :: evs)
    ∧ ∀ c fl a, ECreateFromCommandline c fl a ∈ evs → needs_terminal fl = true.
Proof.
  pose proof (launchExecutable_terminal_flag
                (Demo.desktop true true (λ _, true) Demo.no_files)
                (Demo.helpful EXEC_IN_TERMINAL) Demo.run_sh Demo.ctx0 Demo.start) as H.
  simpl in H. destruct H as (r & w' & evs & Hrun & Hadd & _ & Hfl & _).
  exists r, w', evs. split; [exact Hrun|]. split; [exact Hadd|].
  intros c fl a Hin. destruct (Hfl c fl a Hin) as (_ & Ht & _).
  apply Ht. reflexivity.
Defined.

(** ** Launching a desktop entry *)

Section DesktopEntry.

Variable P : Platform.
Variable L : Launcher.

Lemma launchWithApp_run app ps ctx w :
  ∃ w' evs,
    final_world (launchWithApp P L app ps ctx w) = Some w'
    ∧ added w w' evs
    ∧ ∀ n a, (EDesktopAppInfoNew n a ∉ evs) ∧ (EDesktopAppInfoNewFromFilename n a ∉ evs).
Proof.
  destruct ps as [|p ps].
  - rewrite launchWithApp_nil. simpl.
    destruct (launch_uris _ _ _ _ _) as [[|] err]; simpl;
      eexists _, [_]; (split; [reflexivity|]); (split; [reflexivity|]);
      intros; split; not_in_events.
  - rewrite launchWithApp_cons. simpl.
    destruct (launch_uris _ _ _ _ _) as [[|] err]; simpl;
      eexists _, _; (split; [reflexivity|]);
      (split; [unfold added; simpl; rewrite <- ?app_assoc; simpl; reflexivity|]);
      intros; split; not_in_events.
Qed.

Lemma launchDesktopEntry_exec rec fi ps ctx w :
  isExecutableType fi = true →
  isShortcut fi = false →
  let act := chosen_action L fi w in
  let w1 := if quickExec_ L then w else log (EAskExecFile fi act) w in
  act = DIRECT_EXEC ∨ act = EXEC_IN_TERMINAL →
  launchDesktopEntry P L rec fi ps ctx w =
    match entry_id P fi with
    | Some name => launchDesktopEntry_name P L name ps ctx w1
    | None => Ok false w1
    end.
Proof.
  intros Hx Hs act w1 Hact. subst w1 act.
  unfold launchDesktopEntry, entry_id, chosen_action in *. rewrite Hx, Hs.
  unfold bind at 1. unfold bind at 1.
  destruct (quickExec_ L).
  - unfold ret at 1. unfold ret at 1.
    destruct (empty_str (target fi)); simpl; [|reflexivity].
    by destruct (localPath P (path fi)).
  - unfold askExecFile. rewrite prim_Ok.
    destruct Hact as [-> | ->]; unfold ret at 1;
      (destruct (empty_str (target fi)); simpl; [|reflexivity]);
      by destruct (localPath P (path fi)).
Qed.

(** C6: a desktop entry that goes to the registry (it is executable, not a
    shortcut, and the action is direct or terminal execution; or it is not
    executable and is native or addressed through menu:) is looked up
    there under its target string when that is not empty and under its
    local path otherwise, and under no other name; a desktop entry that is
    neither executable nor native nor addressed through menu: is not
    launched at all. *)
Theorem launchDesktopEntry_identifier rec (fi : FileInfo) (ps : FilePathList)
    (ctx : CtxPtr) (w : World) :
  (target fi ≠ "" → entry_id P fi = Some (target fi))
  ∧ (target fi = "" → entry_id P fi = localPath P (path fi))
  ∧ (isExecutableType fi = false →
     launchDesktopEntry P L rec fi ps ctx w =
       if isNative fi || hasUriScheme P (path fi) "menu" then
         match entry_id P fi with
         | Some name => launchDesktopEntry_name P L name ps ctx w
         | None => Ok false w
         end
       else Ok false w)
  ∧ (isExecutableType fi = true → isShortcut fi = false →
     let act := chosen_action L fi w in
     let w1 := if quickExec_ L then w else log (EAskExecFile fi act) w in
     act = DIRECT_EXEC ∨ act = EXEC_IN_TERMINAL →
     launchDesktopEntry P L rec fi ps ctx w =
       match entry_id P fi with
       | Some name => launchDesktopEntry_name P L name ps ctx w1
       | None => Ok false w1
       end)
  ∧ (∀ name w0, ∃ w' evs,
       final_world (launchDesktopEntry_name P L name ps ctx w0) = Some w'
       ∧ added w0 w' (registry_event P name (registry_app P w0 name) :: evs)
       ∧ ∀ n a, (EDesktopAppInfoNew n a ∉ evs) ∧ (EDesktopAppInfoNewFromFilename n a ∉ evs)).
Proof.
  split; [|split; [|split; [|split]]].
  - intros Ht. unfold entry_id. apply empty_str_false in Ht. by rewrite Ht.
  - intros Ht. unfold entry_id. by rewrite Ht.
  - apply launchDesktopEntry_plain.
  - apply launchDesktopEntry_exec.
  - intros name w0. rewrite launchDesktopEntry_name_eq. simpl.
    set (w1 := log _ w0).
    destruct (registry_app P w0 name) as [a|].
    + destruct (launchWithApp_run (Some a) ps ctx w1) as (w' & evs & Hf & Hadd & Hno).
      exists w', evs. split; [done|]. split; [|done].
      unfold added in *. rewrite Hadd. simpl. by rewrite <- app_assoc.
    + eexists _, [_]. split; [reflexivity|].
      split; [unfold added; simpl; by rewrite <- app_assoc|].
      intros; split; not_in_events.
Qed.

End DesktopEntry.

Lemma launchDesktopEntry_identifier_witness :
  ∃ w', launchDesktopEntry (Demo.desktop true true (λ _, true) Demo.no_files)
          (Demo.helpful DIRECT_EXEC) (λ _ _, ret true) Demo.app_desktop []
          Demo.ctx0 Demo.start = Ok true w'
        ∧ EDesktopAppInfoNewFromFilename "/usr/share/applications/app.desktop"
            (Some (AppInfo "/usr/share/applications/app.desktop")) ∈ trace w'.
Proof.
  destruct (launchDesktopEntry_identifier
              (Demo.desktop true true (λ _, true) Demo.no_files)
              (Demo.helpful DIRECT_EXEC) (λ _ _, ret true) Demo.app_desktop []
              Demo.ctx0 Demo.start) as (_ & _ & Hplain & _).
  rewrite (Hplain eq_refl). vm_compute. eexists. split; [reflexivity|].
  apply list_elem_of_here.
Defined.

(** ** The batches *)

Section Batches.

Variable P : Platform.
Variable L : Launcher.

Lemma uris_rev (ps : FilePathList) (acc : list string) :
  fold_left (λ us q, uri P q :: us) ps acc = rev (map (uri P) ps) ++ acc.
Proof.
  revert acc. induction ps as [|p ps IH]; intros acc; [reflexivity|].
  simpl. rewrite IH. by rewrite <- app_assoc.
Qed.

Lemma launchWithApp_events a (files : FileInfoList) ctx w :
  files ≠ [] →
  ∃ ok w' evs,
    launchWithApp P L (Some a) (paths files) ctx w = Ok ok w'
    ∧ added w w' evs
    ∧ launch_events P ctx a files evs.
Proof.
  intros Hne. destruct files as [|f0 files]; [done|].
  unfold paths. simpl map. rewrite launchWithApp_cons. cbv zeta.
  rewrite uris_rev, app_nil_r.
  destruct (launch_uris _ _ _ _ _) as [[|] err]; simpl.
  - eexists _, _, _. split; [reflexivity|]. split; [apply added_log|].
    apply (launch_fine P ctx a (f0 :: files) err).
  - eexists _, _, _. split; [reflexivity|]. split.
    + unfold added. simpl. rewrite <- app_assoc. reflexivity.
    + by apply (launch_failed P ctx a (f0 :: files) err (path f0)).
Qed.

(** One round of the loop over the MIME types. *)
Lemma launch_group_run ctx (mime : string) (files : FileInfoList) w :
  files ≠ [] →
  ∃ w' evs,
    launch_group P L ctx tt (mime, files) w = Ok tt w'
    ∧ added w w' evs
    ∧ group_events P ctx mime files evs.
Proof.
  intros Hne. unfold launch_group. simpl.
  unfold bind at 1. unfold g_app_info_get_default_for_type. rewrite prim_Ok.
  set (w1 := log _ w).
  destruct (default_for_type P w mime) as [a|].
  - unfold bind at 1. unfold ret at 1.
    destruct (launchWithApp_events a files ctx w1 Hne) as (ok & w' & evs & Hr & Hadd & Hev).
    rewrite (bind_Ok _ _ _ _ _ Hr). exists w', (EDefaultForType mime (Some a) :: evs).
    split; [reflexivity|]. split; [|by constructor].
    unfold added in *. rewrite Hadd. simpl. by rewrite <- app_assoc.
  - unfold bind at 1. unfold bind at 1. unfold chooseApp. rewrite prim_Ok.
    set (r := v_chooseApp L w1 files mime None). set (w2 := log _ w1).
    assert (H2 : added w w2 [EDefaultForType mime None; EChooseApp files mime r.1 r.2]).
    { unfold added. subst w2 w1. simpl. by rewrite <- app_assoc. }
    clearbody w2 r. clear w1. destruct r as [[a|] err]; simpl in *; unfold ret at 1.
    + destruct (launchWithApp_events a files ctx w2 Hne) as (ok & w' & evs & Hr & Hadd & Hev).
      rewrite (bind_Ok _ _ _ _ _ Hr).
      exists w', (EDefaultForType mime None :: EChooseApp files mime (Some a) err :: evs).
      split; [reflexivity|]. split; [|by constructor].
      unfold added in *. rewrite Hadd, H2. by rewrite <- !app_assoc.
    + exists w2, [EDefaultForType mime None; EChooseApp files mime None err].
      split; [reflexivity|]. split; [done | by constructor].
Qed.

(** The loop over the MIME types: it returns, and the trace it adds is one
    segment per type. *)
Lemma launch_groups_run ctx (groups : list (string * FileInfoList)) w :
  Forall (λ g, g.2 ≠ []) groups →
  ∃ w' segs,
    foldM (launch_group P L ctx) groups tt w = Ok tt w'
    ∧ added w w' (concat segs)
    ∧ Forall2 (λ g seg, group_events P ctx g.1 g.2 seg) groups segs.
Proof.
  intros Hne. revert w. induction Hne as [|[mime files] groups Hg Hne IH]; intros w.
  - exists w, []. split; [reflexivity|]. split; [apply added_refl | constructor].
  - destruct (launch_group_run ctx mime files w Hg) as (w1 & evs & Hr & Hadd & Hev).
    destruct (IH w1) as (w' & segs & Hr' & Hadd' & Hev').
    exists w', (evs :: segs). split.
    + rewrite foldM_cons. by rewrite (bind_Ok _ _ _ _ _ Hr).
    + split; [by apply (added_trans w w1 w') | by constructor].
Qed.

Lemma lookups_app evs1 evs2 : lookups (evs1 ++ evs2) = lookups evs1 ++ lookups evs2.
Proof. apply omap_app. Qed.

Lemma launch_events_lookups ctx a files evs :
  launch_events P ctx a files evs → lookups evs = [].
Proof. by destruct 1. Qed.

Lemma group_events_lookups ctx mime files evs :
  group_events P ctx mime files evs → lookups evs = [mime].
Proof.
  destruct 1 as [a evs Hl | a err evs Hl | err]; [| |reflexivity];
    apply launch_events_lookups in Hl; change (mime :: lookups evs = [mime]);
    by rewrite Hl.
Qed.

Lemma group_events_launched ctx mime files evs :
  group_events P ctx mime files evs →
  launched evs = [] ∨ launched evs = [rev (map (uri P) (paths files))].
Proof.
  destruct 1 as [a evs Hl | a err evs Hl | err]; [| |by left];
    right; by destruct Hl.
Qed.

Lemma groups_lookups ctx (groups : list (string * FileInfoList)) segs :
  Forall2 (λ g seg, group_events P ctx g.1 g.2 seg) groups segs →
  lookups (concat segs) = groups.*1.
Proof.
  induction 1 as [|g seg groups segs Hg _ IH]; [reflexivity|].
  simpl. rewrite lookups_app, IH. by rewrite (group_events_lookups _ _ _ _ Hg).
Qed.

(** What one round of the classification loop does to the table of MIME
    types and to the folder batch. *)
Lemma classify_buckets rec ctx b fi w b' w' :
  classify P L rec ctx b fi w = Ok b' w' →
  mimeTypeToFiles b' =
    (if decide (bucket_of fi = GenericMime)
     then <[mimeType fi := default [] (mimeTypeToFiles b !! mimeType fi) ++ [fi]]>
            (mimeTypeToFiles b)
     else mimeTypeToFiles b)
  ∧ folderInfos b' = (if isDir fi then folderInfos b ++ [fi] else folderInfos b).
Proof.
  unfold classify, bucket_of.
  destruct (isDir fi); [by intros [= <- <-]|].
  destruct (isMountable fi).
  { destruct (empty_str (target fi)); [|by intros [= <- <-]].
    intros (h & w1 & _ & Hk)%bind_inv_Ok.
    destruct h; simpl in Hk; by injection Hk as <- <-. }
  destruct (isDesktopEntry fi).
  { intros (? & ? & _ & Hk)%bind_inv_Ok. by injection Hk as <- <-. }
  destruct (isExecutableType fi).
  { intros (? & ? & _ & Hk)%bind_inv_Ok. by injection Hk as <- <-. }
  destruct (isShortcut fi).
  { intros (p & ? & _ & Hk)%bind_inv_Ok.
    destruct (isValid p); by injection Hk as <- <-. }
  by intros [= <- <-].
Qed.

Lemma generic_of_cons name fi infos :
  generic_of name (fi :: infos) =
    if decide (bucket_of fi = GenericMime ∧ mimeType fi = name)
    then fi :: generic_of name infos else generic_of name infos.
Proof. unfold generic_of. by rewrite filter_cons. Qed.

Lemma classify_loop_mime rec ctx infos b w b' w' (name : string) :
  foldM (classify P L rec ctx) infos b w = Ok b' w' →
  default [] (mimeTypeToFiles b' !! name)
    = default [] (mimeTypeToFiles b !! name) ++ generic_of name infos
  ∧ (is_Some (mimeTypeToFiles b' !! name)
     ↔ is_Some (mimeTypeToFiles b !! name) ∨ generic_of name infos ≠ []).
Proof.
  revert b w. induction infos as [|fi infos IH]; intros b w.
  - intros [= <- <-]. unfold generic_of. simpl. rewrite app_nil_r. split; [done|].
    split; [by left | by intros [?|?]].
  - rewrite foldM_cons. intros (b1 & w1 & Hstep & Hrest)%bind_inv_Ok.
    apply classify_buckets in Hstep as [Hm _].
    destruct (IH _ _ Hrest) as [Hd Hs]. rewrite Hd, Hs, Hm, generic_of_cons.
    clear IH Hd Hs Hm Hrest.
    destruct (decide (bucket_of fi = GenericMime)) as [Hg|Hg].
    + destruct (decide (mimeType fi = name)) as [<-|Hn].
      * rewrite decide_True by done. rewrite lookup_insert_eq. simpl.
        rewrite <- app_assoc. split; [done|].
        split; [intros _; by right | intros _; by left].
      * rewrite decide_False by (by intros [_ ?]). by rewrite lookup_insert_ne.
    + rewrite decide_False by (by intros [? _]). done.
Qed.

(** The table of MIME types after the classification loop: a type is in
    it exactly when some generic file has it, and it is mapped to all
    those files in the order of the input. *)
Lemma classify_loop_groups rec ctx infos w b w1 (name : string) (files : FileInfoList) :
  foldM (classify P L rec ctx) infos no_buckets w = Ok b w1 →
  mimeTypeToFiles b !! name = Some files
  ↔ files ≠ [] ∧ files = generic_of name infos.
Proof.
  intros Hloop. destruct (classify_loop_mime _ _ _ _ _ _ _ name Hloop) as [Hd Hs].
  simpl in Hd, Hs. rewrite lookup_empty in Hd, Hs. simpl in Hd. split.
  - intros Hl. rewrite Hl in Hd, Hs. simpl in Hd. subst files. split; [|done].
    destruct Hs as [Hs _]. destruct Hs as [[? [=]]|?]; by eauto.
  - intros [Hne ->]. destruct Hs as [_ Hs]. destruct Hs as [fs Hfs]; [by right|].
    rewrite Hfs in Hd. simpl in Hd. by rewrite Hfs, Hd.
Qed.

Lemma launch_groups_total rec ctx infos w b w1 w2 :
  foldM (classify P L rec ctx) infos no_buckets w = Ok b w1 →
  ∃ w3, foldM (launch_group P L ctx) (map_to_list (mimeTypeToFiles b)) tt w2 = Ok tt w3.
Proof.
  intros Hloop.
  destruct (launch_groups_run ctx (map_to_list (mimeTypeToFiles b)) w2)
    as (w3 & segs & Hr & _).
  - apply Forall_forall. intros [name files] Hin.
    apply elem_of_map_to_list in Hin.
    by apply (classify_loop_groups rec ctx infos w b w1) in Hin as [? _].
  - by exists w3.
Qed.

Lemma openFolder_events ctx (folders : FileInfoList) w :
  folders ≠ [] →
  ∃ w' evs,
    openFolder P L ctx folders None w = Ok false w'
    ∧ added w w' evs
    ∧ folder_events P ctx folders evs.
Proof.
  intros Hne. unfold openFolder, bind at 1, chooseApp. rewrite prim_Ok.
  set (r := v_chooseApp L w folders "inode/directory" None).
  set (w1 := log _ w).
  assert (H1 : added w w1 [EChooseApp folders "inode/directory" r.1 r.2])
    by apply added_log.
  clearbody w1 r. destruct r as [[a|] e]; simpl in *.
  - destruct (launchWithApp_events a folders ctx w1 Hne) as (ok & w' & evs & Hr & Hadd & Hev).
    rewrite (bind_Ok _ _ _ _ _ Hr). exists w'. eexists. split; [done|].
    split; [apply (added_trans w w1 w' _ _ H1 Hadd)|]. by constructor.
  - unfold bind, showError. rewrite prim_Ok. simpl. eexists _, _.
    split; [reflexivity|].
    split; [unfold added in *; simpl; rewrite H1, <- ?app_assoc; simpl; reflexivity|].
    by constructor.
Qed.

(** A call of the body of [launchFiles] after its classification loop:
    the events of the folder batch, the events of the MIME types, taken in
    the order [groups] in which the table is gone through, and the
    re-dispatch. *)
Lemma launchFiles_body_trace rec infos ctx w b w1 :
  foldM (classify P L rec ctx) infos no_buckets w = Ok b w1 →
  ∃ groups w2 w3 fevs segs,
    NoDup groups.*1
    ∧ (∀ name files, (name, files) ∈ groups ↔ mimeTypeToFiles b !! name = Some files)
    ∧ added w1 w2 fevs
    ∧ folder_events P ctx (folderInfos b) fevs
    ∧ added w2 w3 (concat segs)
    ∧ Forall2 (λ g seg, group_events P ctx g.1 g.2 seg) groups segs
    ∧ launchFiles_body P L rec infos ctx w =
        match pathsToLaunch b with
        | [] => Ok true w3
        | ps =>
            let files := file_info_job P w3 ps in
            match rec files ctx (log (EFileInfoJob ps files) w3) with
            | Ok _ w' => Ok true w'
            | OutOfBounds w' => OutOfBounds w'
            | OutOfFuel => OutOfFuel
            end
        end.
Proof.
  intros Hloop. unfold launchFiles_body. rewrite (bind_Ok _ _ _ _ _ Hloop).
  assert (Hfold : ∃ w2 fevs, (match folderInfos b with
                         | _ :: _ => openFolder P L ctx (folderInfos b) None;; ret ()
                         | [] => ret ()
                         end) w1 = Ok tt w2
                  ∧ added w1 w2 fevs ∧ folder_events P ctx (folderInfos b) fevs).
  { destruct (folderInfos b) as [|f0 fs] eqn:Hfs.
    - exists w1, []. split; [done|]. split; [apply added_refl | by constructor].
    - destruct (openFolder_events ctx (f0 :: fs) w1) as (w2 & fevs & Hr & Hadd & Hev);
        [done|].
      exists w2, fevs. by rewrite (bind_Ok _ _ _ _ _ Hr). }
  destruct Hfold as (w2 & fevs & Hfold & Hfadd & Hfev).
  rewrite (bind_Ok _ _ _ _ _ Hfold).
  destruct (launch_groups_run ctx (map_to_list (mimeTypeToFiles b)) w2)
    as (w3 & segs & Hg & Hadd & Hev).
  { apply Forall_forall. intros [name files] Hin.
    apply elem_of_map_to_list in Hin.
    by apply (classify_loop_groups rec ctx infos w b w1) in Hin as [? _]. }
  rewrite (bind_Ok _ _ _ _ _ Hg).
  exists (map_to_list (mimeTypeToFiles b)), w2, w3, fevs, segs.
  split; [apply NoDup_fst_map_to_list|].
  split; [intros name files; apply elem_of_map_to_list|].
  split; [done|]. split; [done|]. split; [done|]. split; [done|].
  destruct (pathsToLaunch b) as [|p ps]; [reflexivity|].
  unfold launchPaths, bind, FileInfoJob. rewrite prim_Ok. simpl.
  by destruct (rec _ _ _).
Qed.

(** C5 as amended: in a call of [launchFiles] whose classification loop
    has run through, the table holds each MIME type of a generic file once,
    with all generic files of that type; after the folder batch the loop
    over the table runs to its end, in some order [groups] of the table's
    entries, asks for the default application once per type of the table,
    asks the chooser only after a look-up that found nothing, and launches
    an obtained application once, with the URIs of all files of the type
    (in the reverse of their order, as [launchWithApp] builds the list by
    prepending); the call goes on from there with the re-dispatch.
    Look-ups made by other parts of the call are not covered. *)
Theorem mime_groups_launched_once (n : nat) (ctx : CtxPtr) (infos : FileInfoList)
    (w : World) (b : Buckets) (w1 : World) :
  foldM (classify P L (launchFiles P L n) ctx) infos no_buckets w = Ok b w1 →
  ∃ groups w2 w3 fevs segs,
    NoDup groups.*1
    ∧ (∀ name files,
         (name, files) ∈ groups ↔ files ≠ [] ∧ files = generic_of name infos)
    ∧ added w1 w2 fevs
    ∧ folder_events P ctx (folderInfos b) fevs
    ∧ added w2 w3 (concat segs)
    ∧ Forall2 (λ g seg, group_events P ctx g.1 g.2 seg) groups segs
    ∧ lookups (concat segs) = groups.*1
    ∧ Forall2 (λ g seg, launched seg = []
                        ∨ launched seg = [rev (map (uri P) (paths g.2))])
        groups segs
    ∧ launchFiles P L (S n) infos ctx w =
        match pathsToLaunch b with
        | [] => Ok true w3
        | ps =>
            let files := file_info_job P w3 ps in
            match launchFiles P L n files ctx (log (EFileInfoJob ps files) w3) with
            | Ok _ w' => Ok true w'
            | OutOfBounds w' => OutOfBounds w'
            | OutOfFuel => OutOfFuel
            end
        end.
Proof.
  intros Hloop.
  destruct (launchFiles_body_trace _ _ _ _ _ _ Hloop)
    as (groups & w2 & w3 & fevs & segs & Hnd & Hgroups & Hfadd & Hfev & Hadd & Hev & Hcall).
  exists groups, w2, w3, fevs, segs. split; [done|]. split.
  { intros name files. rewrite Hgroups.
    by apply (classify_loop_groups (launchFiles P L n) ctx infos w b w1). }
  split; [done|]. split; [done|]. split; [done|]. split; [done|].
  split; [by rewrite (groups_lookups ctx groups segs Hev)|].
  split; [|exact Hcall].
  eapply Forall2_impl; [exact Hev|]. intros [name files] seg Hg.
  by apply (group_events_launched ctx name).
Qed.

End Batches.

Lemma mime_groups_launched_once_witness :
  let P := Demo.desktop true true (λ _, true) Demo.no_files in
  let L := Demo.helpful DIRECT_EXEC in
  ∃ b w1,
    foldM (classify P L (launchFiles P L 0) Demo.ctx0)
      [Demo.a_txt; Demo.docs; Demo.b_txt] no_buckets Demo.start = Ok b w1
    ∧ ∃ groups w2 w3 segs,
        ("text/plain", [Demo.a_txt; Demo.b_txt]) ∈ groups
        ∧ added w2 w3 (concat segs)
        ∧ lookups (concat segs) = groups.*1
        ∧ launchFiles P L 1 [Demo.a_txt; Demo.docs; Demo.b_txt] Demo.ctx0 Demo.start
          = Ok true w3.
Proof.
  intros P L. eexists _, _. split; [reflexivity|].
  destruct (mime_groups_launched_once P L 0 Demo.ctx0
              [Demo.a_txt; Demo.docs; Demo.b_txt] Demo.start _ _ eq_refl)
    as (groups & w2 & w3 & fevs & segs & _ & Hgroups & _ & _ & Hadd & _ & Hl & _ & Hcall).
  exists groups, w2, w3, segs. split.
  - apply Hgroups. split; [done | reflexivity].
  - split; [exact Hadd|]. split; [exact Hl | exact Hcall].
Defined.

(** C5, the counterexample to the sentence as written: one call of
    [launchFiles] on two shell scripts that the user opens with their
    default application asks for the default application of the one MIME
    type twice and launches it twice, each time with one file. *)
Lemma launchFiles_type_looked_up_per_file :
  let P := Demo.desktop true true (λ _, true) Demo.no_files in
  let L := Demo.helpful OPEN_WITH_DEFAULT_APP in
  ∃ w',
    launchFiles P L 1 [Demo.run_sh; Demo.lib_sh] Demo.ctx0 Demo.start = Ok true w'
    ∧ mimeType Demo.run_sh = mimeType Demo.lib_sh
    ∧ lookups (trace w') = [mimeType Demo.run_sh; mimeType Demo.lib_sh]
    ∧ launched (trace w') = [["file:///home/u/run.sh"]; ["file:///home/u/lib.sh"]].
Proof.
  intros P L. eexists. split; [reflexivity|]. split; [reflexivity|].
  split; reflexivity.
Qed.

(** ** The return value of [launchFiles] *)

Section ReturnValue.

Variable P : Platform.
Variable L : Launcher.

Lemma openFolder_run ctx (f0 : FileInfo) (fs : FileInfoList) err w :
  ∃ w', openFolder P L ctx (f0 :: fs) err w = Ok false w'.
Proof.
  unfold openFolder, bind at 1, chooseApp. rewrite prim_Ok.
  set (r := v_chooseApp L w (f0 :: fs) "inode/directory" err).
  set (w1 := log _ w). clearbody w1 r. destruct r as [[a|] e]; simpl.
  - unfold paths. simpl map.
    destruct (launchWithApp_cons_total P L (Some a) (path f0) (map path fs) ctx w1)
      as (ok & w' & Hr).
    rewrite (bind_Ok _ _ _ _ _ Hr). by exists w'.
  - unfold bind, showError. rewrite prim_Ok. by eexists.
Qed.

Lemma classify_settled rec ctx b fi w :
  settled fi →
  ∃ b' w', classify P L rec ctx b fi w = Ok b' w'
           ∧ pathsToLaunch b' = pathsToLaunch b.
Proof.
  unfold settled, classify, bucket_of. intros Hs.
  destruct (isDir fi); [by eexists _, _|].
  destruct (isMountable fi).
  { destruct (empty_str (target fi)); exfalso; revert Hs; not_in_events. }
  destruct (isDesktopEntry fi); [exfalso; revert Hs; not_in_events|].
  destruct (isExecutableType fi).
  { destruct (launchExecutable_run P L fi ctx w) as (r & w' & evs & Hr & _).
    rewrite (bind_Ok _ _ _ _ _ Hr). by eexists _, _. }
  destruct (isShortcut fi); [exfalso; revert Hs; not_in_events|].
  by eexists _, _.
Qed.

Lemma classify_loop_settled rec ctx infos b w :
  Forall settled infos →
  ∃ b' w', foldM (classify P L rec ctx) infos b w = Ok b' w'
           ∧ pathsToLaunch b' = pathsToLaunch b.
Proof.
  intros Hs. revert b w. induction Hs as [|fi infos Hfi _ IH]; intros b w.
  - by exists b, w.
  - destruct (classify_settled rec ctx b fi w Hfi) as (b1 & w1 & Hr & Hp).
    destruct (IH b1 w1) as (b' & w' & Hr' & Hp').
    exists b', w'. rewrite foldM_cons, (bind_Ok _ _ _ _ _ Hr). split; [done | congruence].
Qed.

(** Once the classification loop is through, the folder batch and the
    batches of the MIME types always run to their end. *)
Lemma launchFiles_body_batches rec infos ctx w b w1 :
  foldM (classify P L rec ctx) infos no_buckets w = Ok b w1 →
  ∃ w2,
    launchFiles_body P L rec infos ctx w =
      match pathsToLaunch b with
      | [] => Ok true w2
      | ps =>
          let files := file_info_job P w2 ps in
          match rec files ctx (log (EFileInfoJob ps files) w2) with
          | Ok _ w' => Ok true w'
          | OutOfBounds w' => OutOfBounds w'
          | OutOfFuel => OutOfFuel
          end
      end.
Proof.
  intros Hloop. unfold launchFiles_body. rewrite (bind_Ok _ _ _ _ _ Hloop).
  assert (Hfold : ∃ wf, (match folderInfos b with
                         | _ :: _ => openFolder P L ctx (folderInfos b) None;; ret ()
                         | [] => ret ()
                         end) w1 = Ok tt wf).
  { destruct (folderInfos b) as [|f0 fs]; [by exists w1|].
    destruct (openFolder_run ctx f0 fs None w1) as (wf & Hr).
    exists wf. by rewrite (bind_Ok _ _ _ _ _ Hr). }
  destruct Hfold as (wf & Hfold). rewrite (bind_Ok _ _ _ _ _ Hfold).
  destruct (launch_groups_total P L rec ctx infos w b w1 wf Hloop) as (w2 & Hg).
  rewrite (bind_Ok _ _ _ _ _ Hg). exists w2.
  destruct (pathsToLaunch b) as [|p ps]; [reflexivity|].
  unfold launchPaths, bind, FileInfoJob. rewrite prim_Ok. simpl.
  by destruct (rec _ _ _).
Qed.

Lemma launchFiles_settled infos ctx w :
  Forall settled infos →
  ∃ w', launchFiles P L 1 infos ctx w = Ok true w'.
Proof.
  intros Hs.
  change (launchFiles P L 1 infos ctx w)
    with (launchFiles_body P L (launchFiles P L 0) infos ctx w).
  destruct (classify_loop_settled (launchFiles P L 0) ctx infos no_buckets w Hs)
    as (b & w1 & Hloop & Hp).
  destruct (launchFiles_body_batches _ _ _ _ _ _ Hloop) as (w2 & Hr).
  exists w2. rewrite Hr, Hp. reflexivity.
Qed.

Lemma classify_no_entry rec ctx b fi w :
  bucket_of fi ≠ DesktopEntry →
  ∃ b' w', classify P L rec ctx b fi w = Ok b' w'.
Proof.
  unfold classify, bucket_of. intros Hk.
  destruct (isDir fi); [by eexists _, _|].
  destruct (isMountable fi).
  { destruct (empty_str (target fi)); [|by eexists _, _].
    unfold bind, showError. rewrite prim_Ok. destruct (negb _); by eexists _, _. }
  destruct (isDesktopEntry fi); [done|].
  destruct (isExecutableType fi).
  { destruct (launchExecutable_run P L fi ctx w) as (r & w' & evs & Hr & _).
    rewrite (bind_Ok _ _ _ _ _ Hr). by eexists _, _. }
  destruct (isShortcut fi); [|by eexists _, _].
  destruct (handleShortcut_run P L fi ctx w) as (p & w' & Hr & _).
  rewrite (bind_Ok _ _ _ _ _ Hr). destruct (isValid p); by eexists _, _.
Qed.

Lemma classify_loop_no_entry rec ctx infos b w :
  Forall (λ fi, bucket_of fi ≠ DesktopEntry) infos →
  ∃ b' w', foldM (classify P L rec ctx) infos b w = Ok b' w'.
Proof.
  intros Hs. revert b w. induction Hs as [|fi infos Hfi _ IH]; intros b w.
  - by exists b, w.
  - destruct (classify_no_entry rec ctx b fi w Hfi) as (b1 & w1 & Hr).
    destruct (IH b1 w1) as (b' & w' & Hr').
    exists b', w'. by rewrite foldM_cons, (bind_Ok _ _ _ _ _ Hr).
Qed.

(** C2 as amended: a call of [launchFiles] that returns returns true,
    whatever the look-ups, the launch primitives and the error surface
    answered.  Once the classification loop is through, the folder batch
    and the batches of the MIME types, taken in some order of the table,
    always run to their end: a batch
    whose launch fails is reported to the error surface once, with the
    error of the primitive and the first path of the batch; a folder batch
    for which [chooseApp] gives no application is reported; a MIME type
    for which no application is obtained is passed over without a report.
    The call then returns true as soon as the re-dispatch of the queued
    paths (if any) returns.  So the call returns true, without re-entering
    itself, on every list of directories, executables and generic files;
    and on every list without desktop entries it returns true after one
    re-dispatch when the metadata job yields only such files. *)
Theorem launchFiles_returns_true :
  (∀ fuel infos ctx w r w',
     launchFiles P L fuel infos ctx w = Ok r w' → r = true)
  ∧ (∀ n infos ctx w b w1,
       foldM (classify P L (launchFiles P L n) ctx) infos no_buckets w = Ok b w1 →
       ∃ groups w2 w3 fevs segs,
         NoDup groups.*1
         ∧ (∀ name files,
              (name, files) ∈ groups ↔ mimeTypeToFiles b !! name = Some files)
         ∧ added w1 w2 fevs
         ∧ folder_events P ctx (folderInfos b) fevs
         ∧ added w2 w3 (concat segs)
         ∧ Forall2 (λ g seg, group_events P ctx g.1 g.2 seg) groups segs
         ∧ launchFiles P L (S n) infos ctx w =
             match pathsToLaunch b with
             | [] => Ok true w3
             | ps =>
                 let files := file_info_job P w3 ps in
                 match launchFiles P L n files ctx (log (EFileInfoJob ps files) w3) with
                 | Ok _ w' => Ok true w'
                 | OutOfBounds w' => OutOfBounds w'
                 | OutOfFuel => OutOfFuel
                 end
             end)
  ∧ (∀ infos ctx w,
       Forall settled infos →
       ∃ w', launchFiles P L 1 infos ctx w = Ok true w')
  ∧ (∀ infos ctx w,
       Forall (λ fi, bucket_of fi ≠ DesktopEntry) infos →
       (∀ w0 ps, Forall settled (file_info_job P w0 ps)) →
       ∃ w', launchFiles P L 2 infos ctx w = Ok true w').
Proof.
  split; [|split; [|split]].
  - intros [|n] infos ctx w r w'; [done|]. simpl. unfold launchFiles_body.
    intros (? & ? & _ & H)%bind_inv_Ok. apply bind_inv_Ok in H as (? & ? & _ & H).
    apply bind_inv_Ok in H as (? & ? & _ & H).
    apply bind_inv_Ok in H as (? & ? & _ & H). by injection H as <- _.
  - intros n infos ctx w b w1 Hloop.
    apply (launchFiles_body_trace P L _ _ _ _ _ _ Hloop).
  - apply launchFiles_settled.
  - intros infos ctx w Hne Hjob.
    change (launchFiles P L 2 infos ctx w)
      with (launchFiles_body P L (launchFiles P L 1) infos ctx w).
    destruct (classify_loop_no_entry (launchFiles P L 1) ctx infos no_buckets w Hne)
      as (b & w1 & Hloop).
    destruct (launchFiles_body_batches _ _ _ _ _ _ Hloop) as (w2 & Hr).
    rewrite Hr. destruct (pathsToLaunch b) as [|p ps]; [by exists w2|]. cbv zeta.
    destruct (launchFiles_settled (file_info_job P w2 (p :: ps)) ctx
                (log (EFileInfoJob (p :: ps) (file_info_job P w2 (p :: ps))) w2))
      as (w' & Hw'); [apply Hjob|].
    rewrite Hw'. by exists w'.
Qed.

End ReturnValue.

Lemma launchFiles_returns_true_witness :
  (∃ w', launchFiles (Demo.desktop false false (λ _, false) Demo.no_files)
           BasicFileLauncher 1 [Demo.docs; Demo.run_sh; Demo.a_txt; Demo.b_txt]
           Demo.ctx0 Demo.start = Ok true w')
  ∧ (∃ w', launchFiles (Demo.desktop true false (λ _, true) (λ _, [Demo.a_txt]))
             (Demo.helpful DIRECT_EXEC) 2
             [Demo.volume ""; Demo.link_to "file:///home/u/a.txt"; Demo.b_txt]
             Demo.ctx0 Demo.start = Ok true w')
  ∧ (∃ w2 w3 fevs segs,
       added Demo.start w2 fevs
       ∧ folder_events (Demo.desktop false false (λ _, false) Demo.no_files)
           Demo.ctx0 [Demo.docs] fevs
       ∧ added w2 w3 (concat segs)
       ∧ launchFiles (Demo.desktop false false (λ _, false) Demo.no_files)
           BasicFileLauncher 1 [Demo.docs; Demo.a_txt] Demo.ctx0 Demo.start
         = Ok true w3).
Proof.
  split; [|split].
  - apply (proj1 (proj2 (proj2 (launchFiles_returns_true
                           (Demo.desktop false false (λ _, false) Demo.no_files)
                           BasicFileLauncher)))).
    repeat constructor.
  - apply (proj2 (proj2 (proj2 (launchFiles_returns_true
                           (Demo.desktop true false (λ _, true) (λ _, [Demo.a_txt]))
                           (Demo.helpful DIRECT_EXEC))))).
    + repeat constructor; discriminate.
    + intros w0 ps. repeat constructor.
  - destruct (proj1 (proj2 (launchFiles_returns_true
                (Demo.desktop false false (λ _, false) Demo.no_files)
                BasicFileLauncher))
                0%nat [Demo.docs; Demo.a_txt] Demo.ctx0 Demo.start _ _ eq_refl)
      as (groups & w2 & w3 & fevs & segs & _ & _ & Hfadd & Hfev & Hadd & _ & Hcall).
    exists w2, w3, fevs, segs.
    split; [exact Hfadd|]. split; [exact Hfev|]. split; [exact Hadd | exact Hcall].
Defined.

(** The re-dispatch has no bound of its own: a shortcut whose target is
    described by the metadata job as the same shortcut again keeps
    [launchFiles] re-entering itself, whatever the budget. *)
Lemma launchFiles_may_not_return (fuel : nat) (w : World) :
  launchFiles
    (Demo.desktop true true (λ _, true) (λ _, [Demo.link_to "file:///home/u/loop"]))
    BasicFileLauncher fuel [Demo.link_to "file:///home/u/loop"] Demo.ctx0 w
  = OutOfFuel.
Proof.
  revert w. induction fuel as [|n IH]; intros w; [reflexivity|].
  set (P := Demo.desktop _ _ _ _) in *.
  change (launchFiles P BasicFileLauncher (S n) [Demo.link_to "file:///home/u/loop"]
            Demo.ctx0 w)
    with (launchFiles_body P BasicFileLauncher (launchFiles P BasicFileLauncher n)
            [Demo.link_to "file:///home/u/loop"] Demo.ctx0 w).
  destruct (launchFiles_body_batches P BasicFileLauncher
              (launchFiles P BasicFileLauncher n)
              [Demo.link_to "file:///home/u/loop"] Demo.ctx0 w
              (add_path (fromUri "file:///home/u/loop") no_buckets) w eq_refl)
    as (w2 & Hr).
  rewrite Hr. simpl pathsToLaunch. cbv zeta iota beta.
  change (file_info_job P w2 [fromUri "file:///home/u/loop"])
    with [Demo.link_to "file:///home/u/loop"].
  by rewrite IH.
Qed.

(** C2, the counterexample to the sentence as written: [launchFiles] does
    not return on every input, and a failure need not be reported.  The
    shortcut that the metadata job describes as itself again makes the call
    re-enter itself whatever the budget; and a text file for which neither
    the desktop nor [chooseApp] has an application is passed over: the call
    returns true, nothing was launched and nothing was reported. *)
Lemma launchFiles_not_always_true :
  ¬ (∀ P L infos ctx w, ∃ fuel r w', launchFiles P L fuel infos ctx w = Ok r w')
  ∧ ∃ w',
      launchFiles (Demo.desktop false true (λ _, true) Demo.no_files)
        BasicFileLauncher 1 [Demo.a_txt] Demo.ctx0 Demo.start = Ok true w'
      ∧ launched (trace w') = []
      ∧ reported (trace w') = [].
Proof.
  split.
  - intros H.
    destruct (H (Demo.desktop true true (λ _, true)
                   (λ _, [Demo.link_to "file:///home/u/loop"]))
                BasicFileLauncher [Demo.link_to "file:///home/u/loop"]
                Demo.ctx0 Demo.start) as (fuel & r & w' & Hr).
    by rewrite launchFiles_may_not_return in Hr.
  - eexists. split; [reflexivity|]. split; reflexivity.
Qed.

(** ** Further properties of the member functions *)

Ltac added_events :=
  unfold added; simpl; rewrite <- ?app_assoc; simpl; reflexivity.

Section Invocation.

Variable P : Platform.
Variable L : Launcher.

(** X1: on a list of paths that is not empty, [launchWithApp] calls the
    launch primitive exactly once, with the URIs of all paths in the
    reverse of their order; it returns what the primitive returned, and a
    failure is reported exactly once, with the primitive's error and the
    first path of the list. *)
Theorem launchWithApp_single_launch (app : GAppInfoPtr) (p0 : FilePath)
    (ps : FilePathList) (ctx : CtxPtr) (w : World) :
  let uris := rev (map (uri P) (p0 :: ps)) in
  let r := launch_uris P w app uris ctx in
  ∃ w' evs,
    launchWithApp P L app (p0 :: ps) ctx w = Ok r.1 w'
    ∧ added w w' evs
    ∧ launched evs = [uris]
    ∧ reported evs = (if r.1 then [] else [(r.2, p0)]).
Proof.
  intros uris r. rewrite launchWithApp_cons. cbv zeta.
  rewrite (uris_rev P (p0 :: ps) []), app_nil_r. fold uris. fold r.
  destruct r as [[|] err]; simpl; eexists _, _;
    (split; [reflexivity|]); (split; [added_events|]); done.
Qed.

(** X2: [launchWithDefaultApp] looks up the default application of the
    file's MIME type once.  When there is none it launches nothing, tells
    the error surface the file's path with a null error, and returns false;
    when there is one it launches the file's URI alone and returns whether
    that launch worked. *)
Theorem launchWithDefaultApp_outcome (fi : FileInfo) (ctx : CtxPtr) (w : World) :
  ∃ r w' evs,
    launchWithDefaultApp P L fi ctx w = Ok r w'
    ∧ added w w' evs
    ∧ lookups evs = [mimeType fi]
    ∧ match default_for_type P w (mimeType fi) with
      | None =>
          r = false ∧ launched evs = [] ∧ reported evs = [(None, path fi)]
      | Some a =>
          launched evs = [[uri P (path fi)]]
          ∧ (r = true ↔ reported evs = [])
          ∧ ∀ e, e ∈ reported evs → e.2 = path fi
      end.
Proof.
  unfold launchWithDefaultApp, bind, g_app_info_get_default_for_type. rewrite prim_Ok.
  destruct (default_for_type P w (mimeType fi)) as [a|].
  - simpl. rewrite launchWithApp_cons. simpl.
    destruct (launch_uris _ _ _ _ _) as [[|] err]; simpl;
      eexists _, _, _; (split; [reflexivity|]); (split; [added_events|]);
      (split; [reflexivity|]); (split; [reflexivity|]); simpl.
    + split; [done|]. intros e He. by apply elem_of_nil in He.
    + split; [done|]. intros e He. apply elem_of_cons in He as [->|He]; [done|].
      by apply elem_of_nil in He.
  - unfold showError, prim, ret. eexists _, _, _. split; [reflexivity|].
    split; [added_events|]. done.
Qed.

(** X3: [launchDesktopEntry(const char*, ...)] asks the registry once, by
    file name when the identifier is an absolute path and by desktop id
    otherwise.  When the registry knows no such entry nothing is launched,
    the error surface gets the error G_IO_ERROR_FAILED that names the
    identifier, with no path, and the result is false; when it knows one,
    the call is the call of [launchWithApp] with that application and the
    extra paths. *)
Theorem launchDesktopEntry_name_outcome (name : string) (ps : FilePathList)
    (ctx : CtxPtr) (w : World) :
  let w1 := log (registry_event P name (registry_app P w name)) w in
  match registry_app P w name with
  | None =>
      ∃ w' evs,
        launchDesktopEntry_name P L name ps ctx w = Ok false w'
        ∧ added w1 w' evs
        ∧ launched evs = []
        ∧ reported evs =
            [(Some {| code := G_IO_ERROR_FAILED;
                      message := "Invalid desktop entry file: '" +:+ name +:+ "'" |},
              NullPath)]
  | Some a =>
      launchDesktopEntry_name P L name ps ctx w = launchWithApp P L (Some a) ps ctx w1
  end.
Proof.
  intros w1. rewrite launchDesktopEntry_name_eq. fold w1.
  destruct (registry_app P w name) as [a|]; [reflexivity|].
  eexists _, [_]. split; [reflexivity|]. split; [reflexivity|]. done.
Qed.

(** X4: [openFolder] on a folder batch that is not empty never looks up a
    default application: it asks [chooseApp] once, for all folders and the
    type inode/directory, and that question is the first thing it does.
    With an application it launches once, with the URIs of all folders,
    and reports the failure of that launch if it fails; without one it
    launches nothing and reports the error [chooseApp] left, with no path.
    It does nothing else, and it returns false either way. *)
Theorem openFolder_outcome (ctx : CtxPtr) (f0 : FileInfo) (fs : FileInfoList)
    (err : GErrorPtr) (w : World) :
  let r := v_chooseApp L w (f0 :: fs) "inode/directory" err in
  ∃ w' evs,
    openFolder P L ctx (f0 :: fs) err w = Ok false w'
    ∧ added w w' (EChooseApp (f0 :: fs) "inode/directory" r.1 r.2 :: evs)
    ∧ lookups evs = []
    ∧ match r.1 with
      | Some a => launched evs = [rev (map (uri P) (paths (f0 :: fs)))]
      | None => launched evs = [] ∧ reported evs = [(r.2, NullPath)]
      end
    ∧ match r.1 with
      | Some a => launch_events P ctx a (f0 :: fs) evs
      | None => ∃ h, evs = [EShowError ctx r.2 NullPath None h]
      end.
Proof.
  intros r. unfold openFolder, bind at 1, chooseApp. rewrite prim_Ok. fold r.
  set (w1 := log _ w).
  assert (H1 : added w w1 [EChooseApp (f0 :: fs) "inode/directory" r.1 r.2])
    by apply added_log.
  clearbody w1 r. destruct r as [[a|] e]; simpl in *.
  - unfold paths. simpl map. unfold bind. rewrite launchWithApp_cons. cbv zeta.
    rewrite (uris_rev P (path f0 :: map path fs) []), app_nil_r.
    destruct (launch_uris _ _ _ _ _) as [[|] e']; simpl; eexists _, _;
      (split; [reflexivity|]);
      (split; [unfold added in *; simpl; rewrite H1, <- ?app_assoc; simpl; reflexivity|]);
      (split; [done|]); (split; [done|]); by constructor.
  - unfold bind, showError. rewrite prim_Ok. simpl. eexists _, _.
    split; [reflexivity|].
    split; [unfold added in *; simpl; rewrite H1, <- ?app_assoc; simpl; reflexivity|].
    split; [done|]. split; [done|]. by eexists.
Qed.

(** X5: when the classification loop of [launchFiles] returns, the folder
    batch holds exactly the directories of the input, in the order of the
    input, whatever else the list contains. *)
Theorem classify_loop_folder_batch rec (ctx : CtxPtr) (infos : FileInfoList)
    (w : World) (b : Buckets) (w1 : World) :
  foldM (classify P L rec ctx) infos no_buckets w = Ok b w1 →
  folderInfos b = filter (λ fi, isDir fi = true) infos.
Proof.
  assert (Hgen : ∀ b0 w0,
    foldM (classify P L rec ctx) infos b0 w0 = Ok b w1 →
    folderInfos b = folderInfos b0 ++ filter (λ fi, isDir fi = true) infos).
  { induction infos as [|fi infos' IH]; intros b0 w0.
    - intros [= <- <-]. by rewrite app_nil_r.
    - rewrite foldM_cons. intros (b1 & w2 & Hstep & Hrest)%bind_inv_Ok.
      apply classify_buckets in Hstep as [_ Hf]. rewrite (IH _ _ Hrest), Hf.
      rewrite filter_cons. destruct (isDir fi).
      + rewrite decide_True by done. by rewrite <- app_assoc.
      + rewrite decide_False by done. done. }
  intros H. by rewrite (Hgen _ _ H).
Qed.

(** X6: on the empty list [launchFiles] returns true and does nothing: no
    look-up, no launch, no report, no metadata job. *)
Theorem launchFiles_nil (n : nat) (ctx : CtxPtr) (w : World) :
  launchFiles P L (S n) [] ctx w = Ok true w.
Proof.
  simpl. unfold launchFiles_body, bind. simpl. by rewrite map_to_list_empty.
Qed.

Lemma direct_exec_launch (f : string) (flags : Z) (ctx : CtxPtr) (w : World) :
  ∃ r w' evs,
    direct_exec P L f flags ctx w = Ok r w'
    ∧ added w w' evs
    ∧ (length (app_launches evs) ≤ 1)%nat
    ∧ Forall (exec_event_ok ctx r) evs.
Proof.
  unfold direct_exec, bind, fm_app_info_create_from_commandline. rewrite prim_Ok.
  set (c0 := create_from_commandline P w (g_shell_quote P f) flags).
  set (w1 := log _ w).
  assert (H1 : added w w1 [ECreateFromCommandline (g_shell_quote P f) flags c0])
    by apply added_log.
  clearbody w1 c0. destruct c0 as [a|].
  2:{ exists false, w1, [ECreateFromCommandline (g_shell_quote P f) flags None].
      unfold ret. split; [done|]. split; [done|]. split; [simpl; lia|].
      by repeat constructor. }
  destruct (g_path_get_dirname P f =? ".")%string eqn:Hdot; simpl.
  - unfold ret, fm_app_info_launch, showError, prim.
    destruct (app_info_launch P w1 a ctx) as [[|] err]; simpl;
      eexists _, _, _; (split; [reflexivity|]);
      (split; [unfold added in *; simpl; rewrite H1, <- ?app_assoc; simpl; reflexivity|]);
      (split; [simpl; lia | by repeat constructor]).
  - unfold g_get_current_dir, chdir, ret, fm_app_info_launch, showError, prim.
    destruct (chdir_errno P w1 (g_path_get_dirname P f)) as [e|]; simpl.
    + match goal with |- context [app_info_launch P ?x a ctx] =>
        destruct (app_info_launch P x a ctx) as [[|] err] end; simpl;
        eexists _, _, _; (split; [reflexivity|]);
        (split; [unfold added in *; simpl; rewrite H1, <- ?app_assoc; simpl; reflexivity|]);
        (split; [simpl; lia | by repeat constructor]).
    + match goal with |- context [app_info_launch P ?x a ctx] =>
        destruct (app_info_launch P x a ctx) as [[|] err] end; simpl;
        match goal with |- context [chdir_errno P ?x (cwd w1)] =>
          destruct (chdir_errno P x (cwd w1)) as [e|] end; simpl;
        eexists _, _, _; (split; [reflexivity|]);
        (split; [unfold added in *; simpl; rewrite H1, <- ?app_assoc; simpl; reflexivity|]);
        (split; [simpl; lia | by repeat constructor]).
Qed.

Lemma app_launches_app evs1 evs2 :
  app_launches (evs1 ++ evs2) = app_launches evs1 ++ app_launches evs2.
Proof. apply omap_app. Qed.

(** X7: [launchExecutable] always returns; it launches at most one
    application through [fm_app_info_launch], with the caller's launch
    context, and once it has done so it returns true, whether the launch
    worked or not and whether the change of directory before it worked or
    not; when the application cannot be created from the command line it
    returns false. *)
Theorem launchExecutable_true_once_launched (fi : FileInfo) (ctx : CtxPtr)
    (w : World) :
  ∃ r w' evs,
    launchExecutable P L fi ctx w = Ok r w'
    ∧ added w w' evs
    ∧ (length (app_launches evs) ≤ 1)%nat
    ∧ (∀ a c ok err, EFmAppInfoLaunch a c ok err ∈ evs → c = ctx ∧ r = true)
    ∧ (∀ c fl, ECreateFromCommandline c fl None ∈ evs → r = false).
Proof.
  assert (Hall : ∃ r w' evs,
    launchExecutable P L fi ctx w = Ok r w'
    ∧ added w w' evs
    ∧ (length (app_launches evs) ≤ 1)%nat
    ∧ Forall (exec_event_ok ctx r) evs).
  { destruct (localPath P (path fi)) as [f|] eqn:Hf.
    2:{ exists false, w, []. unfold launchExecutable. rewrite Hf.
        split; [done|]. split; [apply added_refl|]. split; [simpl; lia | constructor]. }
    destruct (file_test_is_executable P w f) eqn:Hok.
    2:{ eexists false, _, [_]. unfold launchExecutable. rewrite Hf.
        unfold bind, g_file_test_is_executable. rewrite prim_Ok, Hok.
        split; [reflexivity|]. split; [reflexivity|].
        split; [simpl; lia | by repeat constructor]. }
    rewrite (launchExecutable_eq P L fi ctx w f Hf Hok). simpl.
    set (w1 := log (EFileTestIsExecutable f true) w).
    set (w2 := if quickExec_ L then w1 else log _ w1).
    assert (H2 : ∃ pre, added w w2 pre ∧ app_launches pre = []
                        ∧ ∀ r, Forall (exec_event_ok ctx r) pre).
    { subst w2. destruct (quickExec_ L).
      - exists [EFileTestIsExecutable f true]. split; [done|]. split; [done|].
        intros r. by repeat constructor.
      - eexists [_; _]. split; [unfold added; simpl; by rewrite <- app_assoc|].
        split; [done|]. intros r. by repeat constructor. }
    destruct H2 as (pre & H2 & Hpre & Hpre'). clearbody w2.
    assert (Hexec : ∀ fl, ∃ r w' evs,
      direct_exec P L f fl ctx w2 = Ok r w' ∧ added w w' evs
      ∧ (length (app_launches evs) ≤ 1)%nat ∧ Forall (exec_event_ok ctx r) evs).
    { intros fl.
      destruct (direct_exec_launch f fl ctx w2) as (r & w' & evs & Hr & Hadd & Hlen & Hev).
      exists r, w', (pre ++ evs). split; [done|].
      split; [apply (added_trans w w2 w' _ _ H2 Hadd)|].
      split; [by rewrite app_launches_app, Hpre|]. apply Forall_app. by split. }
    assert (Hnone : ∃ r w' evs, Ok false w2 = Ok r w' ∧ added w w' evs
      ∧ (length (app_launches evs) ≤ 1)%nat ∧ Forall (exec_event_ok ctx r) evs).
    { exists false, w2, pre. split; [done|]. split; [done|].
      split; [rewrite Hpre; simpl; lia | done]. }
    destruct (chosen_action L fi w1); try apply Hnone; try apply Hexec.
    unfold launchWithDefaultApp, bind, g_app_info_get_default_for_type.
    rewrite prim_Ok. destruct (default_for_type P w2 (mimeType fi)) as [a|].
    - simpl. rewrite launchWithApp_cons. simpl.
      destruct (launch_uris _ _ _ _ _) as [[|] err]; simpl;
        eexists _, _, (pre ++ _); (split; [reflexivity|]);
        (split; [unfold added in *; simpl; rewrite H2, <- ?app_assoc; simpl; reflexivity|]);
        (split; [rewrite app_launches_app, Hpre; simpl; lia|]);
        apply Forall_app; (split; [done | by repeat constructor]).
    - unfold showError, prim, ret. eexists _, _, (pre ++ _). split; [reflexivity|].
      split; [unfold added in *; simpl; rewrite H2, <- ?app_assoc; simpl; reflexivity|].
      split; [rewrite app_launches_app, Hpre; simpl; lia|].
      apply Forall_app. split; [done | by repeat constructor]. }
  destruct Hall as (r & w' & evs & Hr & Hadd & Hlen & Hev).
  exists r, w', evs. split; [done|]. split; [done|]. split; [done|].
  rewrite Forall_forall in Hev. split.
  - intros a c ok err Hin. apply (Hev _ Hin).
  - intros c fl Hin. apply (Hev _ Hin).
Qed.

End Invocation.

Lemma classify_loop_folder_batch_witness :
  ∃ b w1,
    foldM (classify (Demo.desktop true true (λ _, true) Demo.no_files)
             (Demo.helpful DIRECT_EXEC) (λ _ _, ret true) Demo.ctx0)
      [Demo.a_txt; Demo.docs; Demo.b_txt] no_buckets Demo.start = Ok b w1
    ∧ folderInfos b = [Demo.docs].
Proof.
  eexists _, _. split; [reflexivity|].
  apply (classify_loop_folder_batch
           (Demo.desktop true true (λ _, true) Demo.no_files)
           (Demo.helpful DIRECT_EXEC) (λ _ _, ret true) Demo.ctx0
           [Demo.a_txt; Demo.docs; Demo.b_txt] Demo.start _ _ eq_refl).
Defined.

(** ** What a whole call of [launchFiles] keeps *)

Section Frame.

Variable P : Platform.
Variable L : Launcher.
Variable R : World → World → list Event → Prop.

Hypothesis R_refl : ∀ w, R w w [].
Hypothesis R_trans : ∀ w1 w2 w3 e1 e2,
  R w1 w2 e1 → R w2 w3 e2 → R w1 w3 (e1 ++ e2).

Lemma respects_ret {A} (a : A) : respects R (ret a).
Proof. intros w. simpl. exists []. split; [apply added_refl | apply R_refl]. Qed.

Lemma respects_out_of_fuel {A} : respects R (@out_of_fuel A).
Proof. by intros w. Qed.

Lemma respects_front {A} (v : list A) : respects R (front v).
Proof.
  intros w. unfold front. destruct (v !! 0%nat); simpl;
    exists []; (split; [apply added_refl | apply R_refl]).
Qed.

Lemma respects_prim {A} (ask : World → A) (ev : A → Event) :
  (∀ w, allowed R (ev (ask w))) → respects R (prim ask ev).
Proof.
  intros H w. rewrite prim_Ok. simpl. eexists. split; [apply added_log | apply H].
Qed.

(** The rest of a computation, after a start that respects [R]. *)
Lemma respects_after {A} (m : M A) w w1 e1 :
  added w w1 e1 → R w w1 e1 →
  match final_world (m w1) with
  | Some w' => ∃ evs, added w1 w' evs ∧ R w1 w' evs
  | None => True
  end →
  match final_world (m w1) with
  | Some w' => ∃ evs, added w w' evs ∧ R w w' evs
  | None => True
  end.
Proof.
  intros Ha Hr. destruct (final_world (m w1)) as [w'|]; [|done].
  intros (e2 & Ha2 & Hr2). exists (e1 ++ e2).
  split; [by apply (added_trans w w1 w') | by apply (R_trans w w1 w')].
Qed.

Lemma respects_bind {A B} (m : M A) (k : A → M B) :
  respects R m → (∀ a, respects R (k a)) → respects R (bind m k).
Proof.
  intros Hm Hk w. unfold bind. specialize (Hm w).
  destruct (m w) as [a w1|w1|]; simpl in *; [|done|done].
  destruct Hm as (e1 & Ha & Hr). apply (respects_after (k a) w w1 e1 Ha Hr), Hk.
Qed.

Lemma respects_foldM {A B} (f : A → B → M A) (l : list B) (a : A) :
  (∀ a x, respects R (f a x)) → respects R (foldM f l a).
Proof.
  intros Hf. revert a. induction l as [|x l IH]; intros a.
  - apply respects_ret.
  - rewrite (foldM_cons f x l a). apply respects_bind; [apply Hf | apply IH].
Qed.

Variable ctx : CtxPtr.

Hypothesis H_other : ∀ e,
  ¬ is_ask e → ¬ is_create e → ¬ is_chdir e → event_ctx_ok ctx e → allowed R e.
Hypothesis H_ask : quickExec_ L = false →
  ∀ fi w, allowed R (EAskExecFile fi (v_askExecFile L w fi)).
Hypothesis H_exec : ∀ f,
  respects R (direct_exec P L f G_APP_INFO_CREATE_NONE ctx).
Hypothesis H_term :
  (∃ fi w, chosen_action L fi w = EXEC_IN_TERMINAL) →
  ∀ f, respects R (direct_exec P L f G_APP_INFO_CREATE_NEEDS_TERMINAL ctx).

Ltac other_event :=
  intros; apply H_other; simpl; first [tauto | reflexivity].

Ltac resp :=
  repeat first
    [ apply respects_ret
    | apply respects_out_of_fuel
    | apply respects_front
    | apply respects_prim; other_event
    | apply respects_bind; [|intros ?]
    | match goal with
      | |- respects _ (if ?c then _ else _) => destruct c
      | |- respects _ (match ?x with _ => _ end) => destruct x
      end ].

Lemma respects_launchWithApp app ps : respects R (launchWithApp P L app ps ctx).
Proof.
  unfold launchWithApp, g_app_info_launch_uris, showError. cbv zeta. resp.
Qed.

Lemma respects_openFolder fs err : respects R (openFolder P L ctx fs err).
Proof.
  unfold openFolder, chooseApp, showError.
  apply respects_bind; [apply respects_prim; other_event|]. intros r.
  destruct (r.1).
  - apply respects_bind; [apply respects_launchWithApp | intros; apply respects_ret].
  - apply respects_bind; [apply respects_prim; other_event | intros; apply respects_ret].
Qed.

Lemma respects_launchWithDefaultApp fi :
  respects R (launchWithDefaultApp P L fi ctx).
Proof.
  unfold launchWithDefaultApp, g_app_info_get_default_for_type, showError. cbv zeta.
  apply respects_bind; [apply respects_prim; other_event|]. intros [a|];
    [apply respects_launchWithApp | resp].
Qed.

Lemma respects_launchDesktopEntry_name name ps :
  respects R (launchDesktopEntry_name P L name ps ctx).
Proof.
  unfold launchDesktopEntry_name, g_desktop_app_info_new_from_filename,
    g_desktop_app_info_new, showError. cbv zeta.
  apply respects_bind; [destruct (g_path_is_absolute P name);
                        apply respects_prim; other_event|].
  intros [a|]; [apply respects_launchWithApp | resp].
Qed.

Lemma respects_handleShortcut fi : respects R (handleShortcut P L fi ctx).
Proof.
  unfold handleShortcut, g_app_info_get_default_for_uri_scheme. cbv zeta.
  destruct (g_uri_parse_scheme P (target fi)); [|apply respects_ret].
  destruct (_ || _); [apply respects_ret|].
  apply respects_bind; [apply respects_prim; other_event|]. intros app.
  apply respects_bind; [apply respects_launchWithApp | intros; apply respects_ret].
Qed.

(** The question about the action, when it is asked. *)
Lemma respects_choice fi :
  respects R (if quickExec_ L then ret DIRECT_EXEC else askExecFile L fi).
Proof.
  destruct (quickExec_ L) eqn:Hq; [apply respects_ret|].
  apply respects_prim. intros w. by apply H_ask.
Qed.

Lemma respects_launchExecutable fi : respects R (launchExecutable P L fi ctx).
Proof.
  intros w. destruct (localPath P (path fi)) as [f|] eqn:Hf.
  2:{ unfold launchExecutable. rewrite Hf. apply respects_ret. }
  destruct (file_test_is_executable P w f) eqn:Hok.
  2:{ unfold launchExecutable. rewrite Hf. unfold bind, g_file_test_is_executable.
      rewrite prim_Ok, Hok. simpl. eexists. split; [apply added_log|].
      apply H_other; simpl; first [tauto | reflexivity]. }
  rewrite (launchExecutable_eq P L fi ctx w f Hf Hok). cbv zeta.
  set (w1 := log (EFileTestIsExecutable f true) w).
  set (act := chosen_action L fi w1).
  assert (Hact : chosen_action L fi w1 = act) by done.
  set (w2 := if quickExec_ L then w1 else log (EAskExecFile fi act) w1).
  assert (H1 : added w w1 [EFileTestIsExecutable f true] ∧ R w w1 [EFileTestIsExecutable f true]).
  { split; [apply added_log | apply H_other; simpl; first [tauto | reflexivity]]. }
  assert (H2 : ∃ pre, added w w2 pre ∧ R w w2 pre).
  { subst w2. destruct (quickExec_ L) eqn:Hq; [by eexists|].
    exists ([EFileTestIsExecutable f true] ++ [EAskExecFile fi act]).
    destruct H1 as [Ha Hr]. split.
    - apply (added_trans w w1 _ _ _ Ha). apply added_log.
    - apply (R_trans w w1 _ _ _ Hr). subst act. unfold chosen_action. rewrite Hq.
      by apply H_ask. }
  destruct H2 as (pre & Ha2 & Hr2). clearbody w2 act.
  destruct act.
  - simpl. by exists pre.
  - apply (respects_after _ w w2 pre Ha2 Hr2), H_exec.
  - apply (respects_after _ w w2 pre Ha2 Hr2), H_term. by exists fi, w1.
  - apply (respects_after _ w w2 pre Ha2 Hr2), respects_launchWithDefaultApp.
  - simpl. by exists pre.
Qed.

Section FrameBody.

Variable rec : FileInfoList → CtxPtr → M bool.
Hypothesis H_rec : ∀ files, respects R (rec files ctx).

Lemma respects_launchPaths ps : respects R (launchPaths P rec ps ctx).
Proof.
  unfold launchPaths, FileInfoJob.
  apply respects_bind; [apply respects_prim; other_event|]. intros files.
  apply respects_bind; [apply H_rec | intros; apply respects_ret].
Qed.

Lemma respects_launchDesktopEntry fi ps :
  respects R (launchDesktopEntry P L rec fi ps ctx).
Proof.
  unfold launchDesktopEntry. cbv zeta. apply respects_bind.
  - destruct (isExecutableType fi).
    + apply respects_bind; [apply respects_choice|]. intros act.
      destruct act; try apply respects_ret.
      * destruct (isShortcut fi); [|apply respects_ret].
        apply respects_bind; [apply respects_handleShortcut | intros; apply respects_ret].
      * destruct (isShortcut fi); [|apply respects_ret].
        apply respects_bind; [apply respects_handleShortcut | intros; apply respects_ret].
      * apply respects_bind; [apply respects_launchWithDefaultApp|].
        intros; apply respects_ret.
    + destruct (_ || _); apply respects_ret.
  - intros [r|[[n|] [|p ps']]]; try apply respects_ret;
      try apply respects_launchDesktopEntry_name.
    apply respects_bind; [apply respects_launchPaths | intros; apply respects_ret].
Qed.

Lemma respects_classify b fi : respects R (classify P L rec ctx b fi).
Proof.
  unfold classify, showError. cbv zeta.
  destruct (isDir fi); [apply respects_ret|].
  destruct (isMountable fi).
  { destruct (empty_str (target fi)); [|apply respects_ret].
    apply respects_bind; [apply respects_prim; other_event|].
    intros h. destruct (negb h); apply respects_ret. }
  destruct (isDesktopEntry fi).
  { apply respects_bind; [apply respects_launchDesktopEntry | intros; apply respects_ret]. }
  destruct (isExecutableType fi).
  { apply respects_bind; [apply respects_launchExecutable | intros; apply respects_ret]. }
  destruct (isShortcut fi); [|apply respects_ret].
  apply respects_bind; [apply respects_handleShortcut|].
  intros p. destruct (isValid p); apply respects_ret.
Qed.

Lemma respects_launch_group u g : respects R (launch_group P L ctx u g).
Proof.
  unfold launch_group, g_app_info_get_default_for_type, chooseApp. cbv zeta.
  apply respects_bind; [apply respects_prim; other_event|]. intros app.
  apply respects_bind.
  - destruct app; [apply respects_ret|].
    apply respects_bind; [apply respects_prim; other_event | intros; apply respects_ret].
  - intros [a|]; [|apply respects_ret].
    apply respects_bind; [apply respects_launchWithApp | intros; apply respects_ret].
Qed.

Lemma respects_launchFiles_body infos :
  respects R (launchFiles_body P L rec infos ctx).
Proof.
  unfold launchFiles_body.
  apply respects_bind; [apply respects_foldM; intros; apply respects_classify|].
  intros b. apply respects_bind.
  { destruct (folderInfos b); [apply respects_ret|].
    apply respects_bind; [apply respects_openFolder | intros; apply respects_ret]. }
  intros _. apply respects_bind.
  { apply respects_foldM. intros; apply respects_launch_group. }
  intros _. apply respects_bind; [|intros; apply respects_ret].
  destruct (pathsToLaunch b); [apply respects_ret|].
  apply respects_bind; [apply respects_launchPaths | intros; apply respects_ret].
Qed.

End FrameBody.

(** Whatever relation the single steps respect, the whole call respects,
    through all its re-dispatches. *)
Lemma respects_launchFiles fuel infos :
  respects R (launchFiles P L fuel infos ctx).
Proof.
  revert infos. induction fuel as [|n IH]; intros infos.
  - apply respects_out_of_fuel.
  - apply respects_launchFiles_body. apply IH.
Qed.

End Frame.

Section Always.

Variable P : Platform.
Variable L : Launcher.
Variable Q : Event → Prop.

Lemma always_refl w : always Q w w [].
Proof. constructor. Qed.

Lemma always_trans (w1 w2 w3 : World) e1 e2 :
  always Q w1 w2 e1 → always Q w2 w3 e2 → always Q w1 w3 (e1 ++ e2).
Proof. unfold always. intros. by apply Forall_app. Qed.

Lemma always_allowed e : Q e → allowed (always Q) e.
Proof. intros H w. by repeat constructor. Qed.

(** The shared body of direct and terminal execution adds the creation of
    the application with the flags it was given, and otherwise no question
    and no creation, and it hands on the caller's launch context. *)
Lemma direct_exec_always f fl ctx :
  (∀ c a, Q (ECreateFromCommandline c fl a)) →
  (∀ e, ¬ is_ask e → ¬ is_create e → event_ctx_ok ctx e → Q e) →
  respects (always Q) (direct_exec P L f fl ctx).
Proof.
  intros Hc Ho.
  assert (Hprim : ∀ A (ask : World → A) ev,
    (∀ a, Q (ev a)) → respects (always Q) (prim ask ev)).
  { intros A ask ev H. apply respects_prim. intros w. apply always_allowed, H. }
  assert (Hshow : ∀ err, respects (always Q) (showError L ctx err NullPath None)).
  { intros err. apply Hprim. intros a. apply Ho; simpl; first [tauto | reflexivity]. }
  assert (Hchdir : ∀ d, respects (always Q) (chdir P d)).
  { intros d w. unfold chdir. simpl. exists [EChdir d (chdir_errno P w d)]. split.
    - unfold added. by destruct (chdir_errno P w d).
    - repeat constructor. apply Ho; simpl; tauto. }
  assert (Hbind := @respects_bind (always Q) always_trans).
  assert (Hret := @respects_ret (always Q) always_refl).
  unfold direct_exec. cbv zeta. apply Hbind; [by apply Hprim|].
  intros [a|]; [|apply Hret]. apply Hbind.
  { destruct (negb _); [|apply Hret]. apply Hbind.
    - intros w. simpl. exists []. split; [apply added_refl | constructor].
    - intros c. apply Hbind; [apply Hchdir|]. intros [e|]; [|apply Hret].
      apply Hbind; [apply Hshow | intros; apply Hret]. }
  intros c. apply Hbind;
    [apply Hprim; intros; apply Ho; simpl; first [tauto | reflexivity]|].
  intros r. apply Hbind.
  { destruct (negb _); [|apply Hret]. apply Hbind; [apply Hshow | intros; apply Hret]. }
  intros _. destruct c; [|apply Hret]. apply Hbind; [apply Hchdir | intros; apply Hret].
Qed.

End Always.

Section WholeCall.

Variable P : Platform.
Variable L : Launcher.

(** X8: in quick-execute mode a call of [launchFiles] that comes to an
    end, by returning or at the unchecked read of the first path, has not
    asked how a file is to be executed, in none of its re-dispatches. *)
Theorem launchFiles_quick_never_asks (fuel : nat) (infos : FileInfoList)
    (ctx : CtxPtr) :
  quickExec_ L = true →
  respects (never is_ask) (launchFiles P L fuel infos ctx).
Proof.
  intros Hq.
  apply respects_launchFiles;
    [apply always_refl | apply always_trans | | rewrite Hq; discriminate | |].
  - intros e He _ _ _. by apply always_allowed.
  - intros f. apply direct_exec_always; [by intros ? ? [] | tauto].
  - intros _ f. apply direct_exec_always; [by intros ? ? [] | tauto].
Qed.

(** X9: when the launcher never decides for execution in a terminal, a
    call of [launchFiles] that comes to an end, by returning or at the
    unchecked read of the first path, has not created an application with
    the flag that asks for a terminal, in none of its re-dispatches. *)
Theorem launchFiles_never_terminal (fuel : nat) (infos : FileInfoList)
    (ctx : CtxPtr) :
  (∀ fi w, chosen_action L fi w ≠ EXEC_IN_TERMINAL) →
  respects (never terminal_create) (launchFiles P L fuel infos ctx).
Proof.
  intros Hno.
  apply respects_launchFiles; [apply always_refl | apply always_trans | | | |].
  - intros e _ Hc _ _. apply always_allowed. destruct e; simpl in *; tauto.
  - intros _ fi w. apply always_allowed. simpl. tauto.
  - intros f. apply direct_exec_always.
    + intros ? ? H. vm_compute in H. discriminate H.
    + intros e _ Hc _. destruct e; simpl in *; tauto.
  - intros (fi & w & Hact). by destruct (Hno fi w).
Qed.

Lemma failed_chdir_in evs d e :
  (d, Some e) ∈ chdirs evs → Exists is_failed_chdir evs.
Proof.
  unfold chdirs. intros (ev & Hin & Hev)%list_elem_of_omap.
  apply Exists_exists. exists ev. split; [done|].
  destruct ev; try done. by injection Hev as -> ->.
Qed.

Lemma cwd_kept_refl w : cwd_kept w w [].
Proof. by left. Qed.

Lemma cwd_kept_trans (w1 w2 w3 : World) e1 e2 :
  cwd_kept w1 w2 e1 → cwd_kept w2 w3 e2 → cwd_kept w1 w3 (e1 ++ e2).
Proof.
  unfold cwd_kept. intros [H1|H1] [H2|H2].
  - left. congruence.
  - right. apply Exists_app. by right.
  - right. apply Exists_app. by left.
  - right. apply Exists_app. by left.
Qed.

Lemma direct_exec_cwd_kept f fl ctx : respects cwd_kept (direct_exec P L f fl ctx).
Proof.
  intros w.
  destruct (direct_exec_run P L f fl ctx w) as (r & w' & evs & Hr & Hadd & _ & Hcwd).
  rewrite Hr. simpl. eexists. split; [exact Hadd|].
  inversion Hcwd as [Hch Hc | e Hne Hch Hc | Hne Hch Hc | e Hne Hch Hc];
    try (by left).
  right. apply Exists_cons. right. apply (failed_chdir_in evs (cwd w) e).
  rewrite <- Hch. apply list_elem_of_further, list_elem_of_here.
Qed.

(** X10: a call of [launchFiles], through all its re-dispatches, ends in
    the working directory it started in unless one of its [chdir] calls
    failed. *)
Theorem launchFiles_keeps_cwd (fuel : nat) (infos : FileInfoList) (ctx : CtxPtr) :
  respects cwd_kept (launchFiles P L fuel infos ctx).
Proof.
  apply respects_launchFiles; [apply cwd_kept_refl | apply cwd_kept_trans | | | |].
  - intros e _ _ _ _ w. by left.
  - intros _ fi w w0. by left.
  - intros f. apply direct_exec_cwd_kept.
  - intros _ f. apply direct_exec_cwd_kept.
Qed.

(** X16: a call of [launchFiles] that comes to an end, by returning or
    at the unchecked read of the first path, has handed the launch context
    it was given, unchanged, to every launch primitive it called and to
    every report it made to the error surface, through all its
    re-dispatches. *)
Theorem launchFiles_passes_context (fuel : nat) (infos : FileInfoList)
    (ctx : CtxPtr) :
  respects (always (event_ctx_ok ctx)) (launchFiles P L fuel infos ctx).
Proof.
  apply respects_launchFiles; [apply always_refl | apply always_trans | | | |].
  - intros e _ _ _ He. by apply always_allowed.
  - intros _ fi w. by apply always_allowed.
  - intros f. apply direct_exec_always; [done | by intros].
  - intros _ f. apply direct_exec_always; [done | by intros].
Qed.

End WholeCall.

Lemma launchFiles_quick_never_asks_witness :
  match final_world
          (launchFiles (Demo.desktop true true (λ _, true) Demo.no_files)
             (Demo.quick EXEC_IN_TERMINAL) 1 [Demo.run_sh; Demo.app_desktop]
             Demo.ctx0 Demo.start) with
  | Some w' => ∃ evs, added Demo.start w' evs ∧ never is_ask Demo.start w' evs
  | None => True
  end.
Proof.
  apply (launchFiles_quick_never_asks
           (Demo.desktop true true (λ _, true) Demo.no_files)
           (Demo.quick EXEC_IN_TERMINAL) 1 [Demo.run_sh; Demo.app_desktop]
           Demo.ctx0 eq_refl Demo.start).
Defined.

Lemma launchFiles_never_terminal_witness :
  match final_world
          (launchFiles (Demo.desktop true true (λ _, true) Demo.no_files)
             BasicFileLauncher 1 [Demo.run_sh; Demo.a_txt] Demo.ctx0 Demo.start) with
  | Some w' => ∃ evs, added Demo.start w' evs ∧ never terminal_create Demo.start w' evs
  | None => True
  end.
Proof.
  apply (launchFiles_never_terminal
           (Demo.desktop true true (λ _, true) Demo.no_files)
           BasicFileLauncher 1 [Demo.run_sh; Demo.a_txt] Demo.ctx0).
  intros fi w. discriminate.
Defined.

(** ** Undefined behaviour and the recursion budget *)

Section Defined.

Variable P : Platform.
Variable L : Launcher.

(** X11: the read of [paths[0]] on an empty list can only be reached
    through a desktop entry: when neither the input nor any answer of the
    metadata job contains a file of the desktop-entry bucket, a call of
    [launchFiles] never runs into undefined behaviour; it returns true
    unless the re-dispatches outlast the budget. *)
Theorem launchFiles_defined_without_entries (fuel : nat) (infos : FileInfoList)
    (ctx : CtxPtr) (w : World) :
  (∀ w0 ps, Forall (λ fi, bucket_of fi ≠ DesktopEntry) (file_info_job P w0 ps)) →
  Forall (λ fi, bucket_of fi ≠ DesktopEntry) infos →
  launchFiles P L fuel infos ctx w = OutOfFuel
  ∨ ∃ w', launchFiles P L fuel infos ctx w = Ok true w'.
Proof.
  intros Hjob. revert infos w. induction fuel as [|n IH]; intros infos w Hin.
  - by left.
  - change (launchFiles P L (S n) infos ctx w)
      with (launchFiles_body P L (launchFiles P L n) infos ctx w).
    destruct (classify_loop_no_entry P L (launchFiles P L n) ctx infos no_buckets w Hin)
      as (b & w1 & Hloop).
    destruct (launchFiles_body_batches P L _ _ _ _ _ _ Hloop) as (w2 & Hr).
    rewrite Hr. destruct (pathsToLaunch b) as [|p ps]; [right; by exists w2|].
    cbv zeta.
    destruct (IH (file_info_job P w2 (p :: ps))
                (log (EFileInfoJob (p :: ps) (file_info_job P w2 (p :: ps))) w2)
                (Hjob _ _)) as [Hf | (w' & Hw')].
    + left. by rewrite Hf.
    + right. rewrite Hw'. by exists w'.
Qed.

End Defined.

Lemma launchFiles_defined_without_entries_witness :
  launchFiles (Demo.desktop true false (λ _, true) (λ _, [Demo.a_txt]))
    (Demo.helpful DIRECT_EXEC) 2
    [Demo.volume "/media/disk"; Demo.run_sh] Demo.ctx0 Demo.start = OutOfFuel
  ∨ ∃ w', launchFiles (Demo.desktop true false (λ _, true) (λ _, [Demo.a_txt]))
            (Demo.helpful DIRECT_EXEC) 2
            [Demo.volume "/media/disk"; Demo.run_sh] Demo.ctx0 Demo.start = Ok true w'.
Proof.
  apply (launchFiles_defined_without_entries
           (Demo.desktop true false (λ _, true) (λ _, [Demo.a_txt]))
           (Demo.helpful DIRECT_EXEC) 2
           [Demo.volume "/media/disk"; Demo.run_sh] Demo.ctx0 Demo.start).
  - intros w0 ps. repeat constructor. discriminate.
  - repeat constructor; discriminate.
Defined.

(** ** Files nobody opens, and paths that are only handed on *)

Section Handover.

Variable P : Platform.
Variable L : Launcher.

Lemma classify_loop_generic rec ctx infos b w :
  Forall (in_bucket GenericMime) infos →
  ∃ b', foldM (classify P L rec ctx) infos b w = Ok b' w
        ∧ folderInfos b' = folderInfos b
        ∧ pathsToLaunch b' = pathsToLaunch b.
Proof.
  intros Hg. revert b. induction Hg as [|fi infos Hfi _ IH]; intros b.
  - by exists b.
  - destruct Hfi as (Hd & Hm & He & Hx & Hs).
    destruct (IH (add_mime (mimeType fi) fi b)) as (b' & Hr & Hf & Hp).
    exists b'. split; [|done]. rewrite foldM_cons.
    rewrite (bind_Ok _ _ _ (add_mime (mimeType fi) fi b) w); [exact Hr|].
    unfold classify. by rewrite Hd, Hm, He, Hx, Hs.
Qed.

Lemma launch_groups_no_app ctx (groups : list (string * FileInfoList)) w :
  (∀ w0 mime, default_for_type P w0 mime = None) →
  (∀ w0 fs mime err, (v_chooseApp L w0 fs mime err).1 = None) →
  ∃ w' evs,
    foldM (launch_group P L ctx) groups tt w = Ok tt w'
    ∧ added w w' evs ∧ launched evs = [] ∧ reported evs = [].
Proof.
  intros Hdef Hch. revert w. induction groups as [|[mime files] groups IH]; intros w.
  - exists w, []. split; [done|]. split; [apply added_refl | done].
  - rewrite foldM_cons. unfold launch_group at 1. simpl.
    unfold bind at 1. unfold bind at 1.
    unfold g_app_info_get_default_for_type. rewrite prim_Ok, Hdef.
    unfold bind at 1. unfold bind at 1. unfold chooseApp. rewrite prim_Ok.
    unfold ret at 1. rewrite Hch. unfold ret at 1.
    set (w1 := log _ (log _ w)).
    destruct (IH w1) as (w' & evs & Hr & Hadd & Hl & Hrep).
    exists w'. eexists (_ :: _ :: evs). split; [exact Hr|].
    split.
    { unfold added in *. rewrite Hadd. subst w1. simpl.
      rewrite <- !app_assoc. reflexivity. }
    split; [exact Hl | exact Hrep].
Qed.

(** X13: files for which neither the platform has a default application
    nor [chooseApp] supplies one are passed over in silence: on a list of
    generic files [launchFiles] then returns true having launched nothing
    and reported nothing to the error surface. *)
Theorem launchFiles_no_application_silent (infos : FileInfoList) (ctx : CtxPtr)
    (w : World) :
  Forall (in_bucket GenericMime) infos →
  (∀ w0 mime, default_for_type P w0 mime = None) →
  (∀ w0 fs mime err, (v_chooseApp L w0 fs mime err).1 = None) →
  ∃ w' evs,
    launchFiles P L 1 infos ctx w = Ok true w'
    ∧ added w w' evs
    ∧ launched evs = []
    ∧ reported evs = [].
Proof.
  intros Hg Hdef Hch.
  change (launchFiles P L 1 infos ctx w)
    with (launchFiles_body P L (launchFiles P L 0) infos ctx w).
  destruct (classify_loop_generic (launchFiles P L 0) ctx infos no_buckets w Hg)
    as (b & Hloop & Hf & Hp).
  simpl in Hf, Hp. unfold launchFiles_body. rewrite (bind_Ok _ _ _ _ _ Hloop).
  rewrite Hf, Hp. unfold bind at 1. unfold ret at 1.
  destruct (launch_groups_no_app ctx (map_to_list (mimeTypeToFiles b)) w Hdef Hch)
    as (w' & evs & Hr & Hadd & Hl & Hrep).
  rewrite (bind_Ok _ _ _ _ _ Hr). by exists w', evs.
Qed.

(** X14: mountable references with a target are only handed on: on a list
    of nothing else [launchFiles] launches and reports nothing itself, asks
    the metadata job once, for the paths of all targets in the order of the
    input, and returns true as soon as the call on the job's answer has
    returned, whatever that call returned. *)
Theorem launchFiles_mounted_handed_on (n : nat) (fi0 : FileInfo)
    (infos : FileInfoList) (ctx : CtxPtr) (w : World) :
  Forall (in_bucket MountableResolved) (fi0 :: infos) →
  let ps := map (λ fi, fromPathStr (target fi)) (fi0 :: infos) in
  let files := file_info_job P w ps in
  launchFiles P L (S n) (fi0 :: infos) ctx w =
    match launchFiles P L n files ctx (log (EFileInfoJob ps files) w) with
    | Ok _ w' => Ok true w'
    | OutOfBounds w' => OutOfBounds w'
    | OutOfFuel => OutOfFuel
    end.
Proof.
  intros Hm ps files.
  assert (Hloop : ∀ l b, Forall (in_bucket MountableResolved) l →
    foldM (classify P L (launchFiles P L n) ctx) l b w
    = Ok {| mimeTypeToFiles := mimeTypeToFiles b;
            folderInfos := folderInfos b;
            pathsToLaunch := pathsToLaunch b
                             ++ map (λ fi, fromPathStr (target fi)) l |} w).
  { intros l b Hl. revert b. induction Hl as [|fi l Hfi _ IH]; intros b.
    - simpl. rewrite app_nil_r. by destruct b.
    - destruct Hfi as (Hd & Hmt & Ht). apply empty_str_false in Ht.
      rewrite foldM_cons.
      rewrite (bind_Ok _ _ _ (add_path (fromPathStr (target fi)) b) w).
      + rewrite IH. simpl. by rewrite <- app_assoc.
      + unfold classify. by rewrite Hd, Hmt, Ht. }
  change (launchFiles P L (S n) (fi0 :: infos) ctx w)
    with (launchFiles_body P L (launchFiles P L n) (fi0 :: infos) ctx w).
  unfold launchFiles_body. rewrite (bind_Ok _ _ _ _ _ (Hloop _ no_buckets Hm)).
  simpl. unfold bind at 1. unfold ret at 1. rewrite map_to_list_empty. simpl.
  unfold bind at 1. unfold ret at 1.
  unfold launchPaths, bind, FileInfoJob. rewrite prim_Ok.
  subst files ps. simpl map. by destruct (launchFiles P L n _ ctx _).
Qed.

(** X15: a desktop entry that is executable and a shortcut never reaches
    the desktop-entry registry through [launchDesktopEntry] itself: the
    extra paths play no part in the call, and the call returns true only
    when the action was to open with the default application. *)
Theorem launchDesktopEntry_shortcut rec (fi : FileInfo) (ps : FilePathList)
    (ctx : CtxPtr) (w : World) :
  isExecutableType fi = true →
  isShortcut fi = true →
  launchDesktopEntry P L rec fi ps ctx w = launchDesktopEntry P L rec fi [] ctx w
  ∧ ∀ w', launchDesktopEntry P L rec fi ps ctx w = Ok true w' →
          chosen_action L fi w = OPEN_WITH_DEFAULT_APP.
Proof.
  intros Hx Hs.
  assert (Heq : ∀ qs, launchDesktopEntry P L rec fi qs ctx w =
    (act <- (if quickExec_ L then ret DIRECT_EXEC else askExecFile L fi) ;;
     match act with
     | EXEC_IN_TERMINAL | DIRECT_EXEC =>
         p <- handleShortcut P L fi ctx ;;
         if isValid p then launchPaths P rec [p] ctx ;; ret false else ret false
     | OPEN_WITH_DEFAULT_APP => launchWithDefaultApp P L fi ctx
     | CANCEL | NONE => ret false
     end) w).
  { intros qs. unfold launchDesktopEntry. rewrite Hx, Hs. cbv zeta.
    unfold bind, ret, askExecFile, prim.
    assert (Hsc : ∀ w1,
      match
        match handleShortcut P L fi ctx w1 with
        | Ok a0 w'0 => Ok (inr (None, if isValid a0 then [a0] else [])) w'0
        | OutOfBounds w'0 => OutOfBounds w'0
        | OutOfFuel => OutOfFuel
        end
      with
      | Ok a w' =>
          match a with
          | inl r => λ w0, Ok r w0
          | inr (Some desktopEntryName, _) =>
              launchDesktopEntry_name P L desktopEntryName qs ctx
          | inr (None, []) => λ w0, Ok false w0
          | inr (None, (_ :: _) as shortcutTargetPaths) =>
              λ w0, match launchPaths P rec shortcutTargetPaths ctx w0 with
                    | Ok _ w'1 => Ok false w'1
                    | OutOfBounds w'1 => OutOfBounds w'1
                    | OutOfFuel => OutOfFuel
                    end
          end w'
      | OutOfBounds w' => OutOfBounds w'
      | OutOfFuel => OutOfFuel
      end =
      match handleShortcut P L fi ctx w1 with
      | Ok a0 w'0 =>
          (if isValid a0
           then λ w2, match launchPaths P rec [a0] ctx w2 with
                      | Ok _ w'1 => Ok false w'1
                      | OutOfBounds w'1 => OutOfBounds w'1
                      | OutOfFuel => OutOfFuel
                      end
           else λ w2, Ok false w2) w'0
      | OutOfBounds w'0 => OutOfBounds w'0
      | OutOfFuel => OutOfFuel
      end).
    { intros w1. destruct (handleShortcut P L fi ctx w1) as [p w2| |]; [|done|done].
      by destruct (isValid p). }
    destruct (quickExec_ L); [apply Hsc|].
    destruct (v_askExecFile L w fi); try reflexivity; try apply Hsc.
    by destruct (launchWithDefaultApp P L fi ctx _). }
  split; [by rewrite !Heq|].
  intros w'. rewrite Heq. unfold chosen_action, bind at 1.
  destruct (quickExec_ L).
  - unfold ret at 1. intros (p & w2 & _ & H)%bind_inv_Ok.
    destruct (isValid p); [|discriminate H].
    apply bind_inv_Ok in H as (? & ? & _ & H). discriminate H.
  - unfold askExecFile. rewrite prim_Ok.
    destruct (v_askExecFile L w fi); try done.
    + intros (p & w2 & _ & H)%bind_inv_Ok.
      destruct (isValid p); [|discriminate H].
      apply bind_inv_Ok in H as (? & ? & _ & H). discriminate H.
    + intros (p & w2 & _ & H)%bind_inv_Ok.
      destruct (isValid p); [|discriminate H].
      apply bind_inv_Ok in H as (? & ? & _ & H). discriminate H.
Qed.

End Handover.

Lemma launchFiles_no_application_silent_witness :
  ∃ w' evs,
    launchFiles (Demo.desktop false true (λ _, true) Demo.no_files)
      BasicFileLauncher 1 [Demo.a_txt; Demo.b_txt] Demo.ctx0 Demo.start = Ok true w'
    ∧ added Demo.start w' evs
    ∧ launched evs = []
    ∧ reported evs = [].
Proof.
  apply (launchFiles_no_application_silent
           (Demo.desktop false true (λ _, true) Demo.no_files)
           BasicFileLauncher [Demo.a_txt; Demo.b_txt] Demo.ctx0 Demo.start).
  - repeat constructor.
  - reflexivity.
  - reflexivity.
Defined.

Lemma launchFiles_mounted_handed_on_witness :
  launchFiles (Demo.desktop true true (λ _, true) (λ _, [Demo.a_txt]))
    (Demo.helpful DIRECT_EXEC) 2 [Demo.volume "/media/disk"] Demo.ctx0 Demo.start
  = match launchFiles (Demo.desktop true true (λ _, true) (λ _, [Demo.a_txt]))
            (Demo.helpful DIRECT_EXEC) 1 [Demo.a_txt] Demo.ctx0
            (log (EFileInfoJob [fromPathStr "/media/disk"] [Demo.a_txt]) Demo.start) with
    | Ok _ w' => Ok true w'
    | OutOfBounds w' => OutOfBounds w'
    | OutOfFuel => OutOfFuel
    end.
Proof.
  apply (launchFiles_mounted_handed_on
           (Demo.desktop true true (λ _, true) (λ _, [Demo.a_txt]))
           (Demo.helpful DIRECT_EXEC) 1 (Demo.volume "/media/disk") []
           Demo.ctx0 Demo.start).
  repeat constructor. discriminate.
Defined.

Lemma launchDesktopEntry_shortcut_witness :
  launchDesktopEntry (Demo.desktop true true (λ _, true) Demo.no_files)
    (Demo.helpful DIRECT_EXEC) (λ _ _, ret true) Demo.link_desktop
    [fromLocalPath "/home/u/a.txt"] Demo.ctx0 Demo.start
  = launchDesktopEntry (Demo.desktop true true (λ _, true) Demo.no_files)
      (Demo.helpful DIRECT_EXEC) (λ _ _, ret true) Demo.link_desktop
      [] Demo.ctx0 Demo.start.
Proof.
  apply (launchDesktopEntry_shortcut
           (Demo.desktop true true (λ _, true) Demo.no_files)
           (Demo.helpful DIRECT_EXEC) (λ _ _, ret true) Demo.link_desktop
           [fromLocalPath "/home/u/a.txt"] Demo.ctx0 Demo.start eq_refl eq_refl).
Defined.
